(** * dependency_scanner.py: import extraction and graph construction

    A shallow embedding of [src/dependency_scanner.py], the properties
    its specification states about it, and further properties of the
    code.

    - Part I    Python values: [str], exceptions, [split], [startswith].
    - Part II   The [re] engine restricted to the constructs of
                [JS_IMPORT_RE], and the pattern itself.
    - Part III  The [ast] nodes the extractor inspects, and [ast.walk].
    - Part IV   The extractors and the dispatcher, in a monad that records
                every library call and propagates exceptions.
    - Part V    The graph store reached through [sess.run] and [build_graph].
    - Part VI   The walk over the code files in [main].
    - Part VII  The vocabulary of the specification, and example inputs.
    - Part VIII Properties of the extractors.
    - Part IX   Properties of the graph builder.
    - Part X    Further properties of the extractors.
    - Part XI   The content of the graph.
    - Part XII  Properties of the walk of [main]. *)

From stdpp Require Import gmap list sorting strings.
From Stdlib Require Import NArith.

Set Warnings "-register-all,-clear-no-such-hyp".

Local Open Scope N_scope.

(* ===================================================================== *)
(** * Part I: Python values *)
(* ===================================================================== *)

(** A Python [str] is a sequence of Unicode code points. *)
Definition char := N.
Definition str := list char.

(** [py "abc"] is the [str] written with the ASCII literal ["abc"]. *)
Definition py (s : string) : str :=
  map Ascii.N_of_ascii (String.list_ascii_of_string s).

(** The exceptions that can reach the code under study.  All of them are
    subclasses of Python's [Exception], which is what [except Exception]
    catches. *)
Inductive exn :=
| OSError | UnicodeDecodeError
| SyntaxError | ValueError | RecursionError | MemoryError
| IndexError
| ServiceUnavailable | ConstraintError.

Inductive result (A : Type) :=
| Ok (a : A)
| Raise (e : exn).
Arguments Ok {A} a.
Arguments Raise {A} e.

#[global] Instance exn_eq_dec : EqDecision exn.
Proof. solve_decision. Defined.

#[global] Instance result_eq_dec `{EqDecision A} : EqDecision (result A).
Proof. solve_decision. Defined.

(** [l[0]]: the first element, or [IndexError] on the empty list. *)
Definition item0 {A} (l : list A) : result A :=
  match l with
  | x :: _ => Ok x
  | [] => Raise IndexError
  end.

Module Str.

(** [s.split(sep)] for a one-character separator.  The result always has
    at least one segment: [''.split('.') == ['']]. *)
Fixpoint split (sep : char) (s : str) : list str :=
  match s with
  | [] => [[]]
  | c :: s' =>
      if c =? sep then [] :: split sep s'
      else match split sep s' with
           | seg :: segs => (c :: seg) :: segs
           | [] => [[c]]
           end
  end.

(** [s.startswith(p)]. *)
Fixpoint startswith (p s : str) : bool :=
  match p, s with
  | [], _ => true
  | a :: p', b :: s' => (a =? b) && startswith p' s'
  | _ :: _, [] => false
  end.

(** Python's ordering of [str] values: lexicographic on code points. *)
Fixpoint le (a b : str) : bool :=
  match a, b with
  | [], _ => true
  | _ :: _, [] => false
  | x :: a', y :: b' => (x <? y) || ((x =? y) && le a' b')
  end.

End Str.

(* ===================================================================== *)
(** * Part II: the regular expression *)
(* ===================================================================== *)

Module Re.

(** Character sets used by the pattern. *)
Inductive cset :=
| Space                     (* \s   *)
| Dot                       (* .    *)
| OneOf (cs : list char)    (* [..] *)
| NoneOf (cs : list char).  (* [^..] *)

(** [\s] on a [str] pattern is Unicode white space
    ([Py_UNICODE_ISSPACE]). *)
Definition isspace (c : char) : bool :=
  ((9 <=? c) && (c <=? 13)) || ((28 <=? c) && (c <=? 32))
  || (c =? 133) || (c =? 160) || (c =? 5760)
  || ((8192 <=? c) && (c <=? 8202))
  || (c =? 8232) || (c =? 8233) || (c =? 8239) || (c =? 8287)
  || (c =? 12288).

Definition mem (c : char) (cs : list char) : bool :=
  existsb (N.eqb c) cs.

(** Without [re.DOTALL], [.] is any character but the newline. *)
Definition accepts (k : cset) (c : char) : bool :=
  match k with
  | Space => isspace c
  | Dot => negb (c =? 10)
  | OneOf cs => mem c cs
  | NoneOf cs => negb (mem c cs)
  end.

(** The pattern constructs that occur in [JS_IMPORT_RE].  Every repetition
    in the pattern is a greedy repetition of a one-character set. *)
Inductive regex :=
| Eps
| Lit (s : str)
| Set_ (k : cset)
| Seq (r1 r2 : regex)
| Alt (r1 r2 : regex)
| Repeat (min : nat) (k : cset)        (* k{min,}, greedy *)
| Group (name : string) (r : regex).   (* (?P<name>r) *)

Definition cat (rs : list regex) : regex := foldr Seq Eps rs.

Definition groups := list (string * str).

Fixpoint strip (p s : str) : option str :=
  match p, s with
  | [], _ => Some s
  | a :: p', b :: s' => if a =? b then strip p' s' else None
  | _ :: _, [] => None
  end.

Section Backtrack.
Context {R : Type}.

(** Greedy repetition: consume as long as the set accepts, and give
    characters back one at a time while the continuation fails. *)
Fixpoint repeat_greedy (k : cset) (min : nat) (s : str)
    (cont : str → option R) : option R :=
  let stop := match min with O => cont s | S _ => None end in
  match s with
  | c :: s' =>
      if accepts k c then
        match repeat_greedy k (pred min) s' cont with
        | Some x => Some x
        | None => stop
        end
      else stop
  | [] => stop
  end.

(** The backtracking matcher.  [cont] receives the unread text and the
    groups captured so far; alternatives are tried left to right. *)
Fixpoint run (r : regex) (s : str) (g : groups)
    (cont : str → groups → option R) : option R :=
  match r with
  | Eps => cont s g
  | Lit p =>
      match strip p s with
      | Some s' => cont s' g
      | None => None
      end
  | Set_ k =>
      match s with
      | c :: s' => if accepts k c then cont s' g else None
      | [] => None
      end
  | Seq r1 r2 => run r1 s g (λ s' g', run r2 s' g' cont)
  | Alt r1 r2 =>
      match run r1 s g cont with
      | Some x => Some x
      | None => run r2 s g cont
      end
  | Repeat min k => repeat_greedy k min s (λ s', cont s' g)
  | Group name r1 =>
      run r1 s g
        (λ s' g', cont s' ((name, take (length s - length s') s) :: g'))
  end.
End Backtrack.

(** A match object: the text left after the match, and its groups. *)
Record Match := { rest : str; groupdict : groups }.

(** [pattern.match] anchored at the start of [s]. *)
Definition match_here (r : regex) (s : str) : option Match :=
  run r s [] (λ s' g, Some {| rest := s'; groupdict := g |}).

(** [m.group(name)]. *)
Definition group (m : Match) (name : string) : result str :=
  match list_find (λ p, bool_decide (p.1 = name)) (groupdict m) with
  | Some (_, (_, v)) => Ok v
  | None => Raise IndexError
  end.

(** [pattern.finditer(s)]: leftmost matches, not overlapping.  [skip] is
    the number of characters still covered by the previous match.  After
    an empty match the scan moves on by one character; the pattern of
    this program never matches the empty string. *)
Fixpoint scan (r : regex) (s : str) (skip : nat) : list Match :=
  match s with
  | [] =>
      match skip, match_here r [] with
      | O, Some m => [m]
      | _, _ => []
      end
  | _ :: s' =>
      match skip with
      | S n => scan r s' n
      | O =>
          match match_here r s with
          | Some m => m :: scan r s' (length s - length (rest m) - 1)
          | None => scan r s' 0
          end
      end
  end.

Definition finditer (r : regex) (s : str) : list Match := scan r s 0.

(** The words a pattern matches, with the groups a match captures (the
    most recent group first). *)
Inductive den : regex → str → groups → Prop :=
| den_eps : den Eps [] []
| den_lit p : den (Lit p) p []
| den_set k c : accepts k c = true → den (Set_ k) [c] []
| den_seq r1 r2 w1 w2 g1 g2 :
    den r1 w1 g1 → den r2 w2 g2 → den (Seq r1 r2) (w1 ++ w2) (g2 ++ g1)
| den_alt_l r1 r2 w g : den r1 w g → den (Alt r1 r2) w g
| den_alt_r r1 r2 w g : den r2 w g → den (Alt r1 r2) w g
| den_repeat min k w :
    Forall (λ c, accepts k c = true) w → (min ≤ length w)%nat →
    den (Repeat min k) w []
| den_group name r w g : den r w g → den (Group name r) w ((name, w) :: g).

End Re.

(** [JS_IMPORT_RE].  With [Q] standing for the single and the double
    quote character, the pattern of the source reads
    [(?:import\s.+\sfrom\s|require\()\s*[Q](?P<mod>[^Q]+)[Q]]. *)
Definition quotes : list char := [39; 34].

Definition JS_IMPORT_RE : Re.regex :=
  Re.Seq
    (Re.Alt
       (Re.cat [Re.Lit (py "import"); Re.Set_ Re.Space; Re.Repeat 1 Re.Dot;
                Re.Set_ Re.Space; Re.Lit (py "from"); Re.Set_ Re.Space])
       (Re.Lit (py "require(")))
    (Re.cat [Re.Repeat 0 Re.Space; Re.Set_ (Re.OneOf quotes);
             Re.Group "mod" (Re.Repeat 1 (Re.NoneOf quotes));
             Re.Set_ (Re.OneOf quotes)]).

(* ===================================================================== *)
(** * Part III: syntax trees *)
(* ===================================================================== *)

Module Ast.

(** [ast.alias]: one name of an import statement. *)
Record alias := { name : str; asname : option str }.

(** The nodes of a tree returned by [ast.parse], as far as the extractor
    can tell them apart: [ast.Import], [ast.ImportFrom], the [ast.alias]
    children of both, and every other class with its child nodes
    ([Module], [FunctionDef], [Try], expressions, ...). *)
Inductive node :=
| Import (names : list alias)
| ImportFrom (module : option str) (names : list alias) (level : nat)
| Alias (a : alias)
| Other (class : string) (children : list node).

(** [ast.iter_child_nodes]. *)
Definition iter_child_nodes (n : node) : list node :=
  match n with
  | Import names => map Alias names
  | ImportFrom _ names _ => map Alias names
  | Alias _ => []
  | Other _ children => children
  end.

(** [ast.walk]: the node and all its descendants.  The library promises
    no particular order; this is the pre-order. *)
Fixpoint walk (n : node) : list node :=
  n :: match n with
       | Import names => map Alias names
       | ImportFrom _ names _ => map Alias names
       | Alias _ => []
       | Other _ children => flat_map walk children
       end.

End Ast.

(* ===================================================================== *)
(** * Part IV: extraction *)
(* ===================================================================== *)

(** A [pathlib.Path], by the attributes the code reads. *)
Record Path := { path_str : str; suffix : str }.

(** What lies outside the program: the file system behind
    [Path.read_text] and the parser behind [ast.parse].  Either call
    returns a value or raises. *)
Record world := {
  file_text : Path → result str;
  parse : str → result Ast.node
}.

(** The library calls an extraction makes. *)
Inductive call :=
| ReadText (p : Path)
| AstParse (source : str)
| ReFinditer (text : str).

(** Computations that log their library calls and may raise. *)
Definition Ext (A : Type) : Type := list call * result A.

Definition ret {A} (a : A) : Ext A := ([], Ok a).

Definition bind {A B} (f : A → Ext B) (m : Ext A) : Ext B :=
  match m with
  | (log, Ok a) => let '(log', r) := f a in (log ++ log', r)
  | (log, Raise e) => (log, Raise e)
  end.

#[global] Instance Ext_ret : MRet Ext := @ret.
#[global] Instance Ext_bind : MBind Ext := @bind.

Definition lift {A} (r : result A) : Ext A := ([], r).

(** [try: body / except Exception: handler]. *)
Definition try_except {A} (body : Ext A) (handler : exn → Ext A) : Ext A :=
  match body with
  | (log, Ok a) => (log, Ok a)
  | (log, Raise e) => let '(log', r) := handler e in (log ++ log', r)
  end.

(** [for x in xs: acc = body(acc, x)]. *)
Fixpoint for_each {A B} (xs : list A) (acc : B) (body : B → A → Ext B)
    : Ext B :=
  match xs with
  | [] => ret acc
  | x :: xs' => acc' ← body acc x; for_each xs' acc' body
  end.

(** [value] used as a condition, for an optional string. *)
Definition truthy (o : option str) : bool :=
  match o with
  | Some (_ :: _) => true
  | _ => false
  end.

Section Extraction.
Variable W : world.

Definition read_text (p : Path) : Ext str :=
  ([ReadText p], file_text W p).

Definition ast_parse (source : str) : Ext Ast.node :=
  ([AstParse source], parse W source).

Definition finditer (r : Re.regex) (text : str) : Ext (list Re.Match) :=
  ([ReFinditer text], Ok (Re.finditer r text)).

Definition extract_python_imports (py_path : Path) : Ext (gset str) :=
  let mods : gset str := ∅ in
  parsed ← try_except
              (text ← read_text py_path;
               tree ← ast_parse text;
               ret (Some tree))
              (λ _, ret None);
  match parsed with
  | None => ret mods
  | Some tree =>
      for_each (Ast.walk tree) mods (λ mods node,
        match node with
        | Ast.Import names =>
            for_each names mods (λ mods alias,
              top ← lift (item0 (Str.split 46 (Ast.name alias)));
              ret (mods ∪ {[ top ]}))
        | Ast.ImportFrom module _ _ =>
            if truthy module then
              top ← lift (item0 (Str.split 46 (default [] module)));
              ret (mods ∪ {[ top ]})
            else ret mods
        | _ => ret mods
        end)
  end.

Definition extract_js_imports (js_path : Path) : Ext (gset str) :=
  let mods : gset str := ∅ in
  text ← read_text js_path;
  ms ← finditer JS_IMPORT_RE text;
  for_each ms mods (λ mods m,
    whole ← lift (Re.group m "mod");
    name ← lift (item0 (Str.split 47 whole));
    if negb (Str.startswith (py ".") name)
    then ret (mods ∪ {[ name ]})
    else ret mods).

(** Dispatch based on file extension. *)
Definition extract_imports (file_path : Path) : Ext (gset str) :=
  if bool_decide (suffix file_path ∈ [py ".py"]) then
    extract_python_imports file_path
  else if bool_decide (suffix file_path ∈ [py ".js"; py ".ts"]) then
    extract_js_imports file_path
  else ret ∅.
End Extraction.

(* ===================================================================== *)
(** * Part V: the graph store and [build_graph] *)
(* ===================================================================== *)

Module Neo4j.

Inductive label := File | Module_.

#[global] Instance label_eq_dec : EqDecision label.
Proof. solve_decision. Defined.

(** A node carries its label and the property that identifies it:
    [path] for a [File], [name] for a [Module]. *)
Record node := { node_id : nat; node_label : label; node_key : str }.

(** An [IMPORTS] relationship between two nodes, by their ids. *)
Record edge := { edge_id : nat; edge_from : nat; edge_to : nat }.

Record graph := {
  nodes : list node;
  edges : list edge;
  next_id : nat;
  constraints : list label
}.

Definition empty : graph :=
  {| nodes := []; edges := []; next_id := 0; constraints := [] |}.

(** The Cypher statements of the source:
    - [CreateConstraint l]:
        CREATE CONSTRAINT IF NOT EXISTS FOR (x:l) REQUIRE x.key IS UNIQUE
    - [MergeFile path]:
        MERGE (f:File {path: $path})
    - [MergeImport mod_ path]:
        MERGE (m:Module {name: $mod})
        MERGE (f:File   {path: $path})
        MERGE (f)-[:IMPORTS]->(m) *)
Inductive statement :=
| CreateConstraint (l : label)
| MergeFile (path : str)
| MergeImport (mod_ path : str).

Definition is_node (l : label) (k : str) (n : node) : bool :=
  bool_decide (node_label n = l) && bool_decide (node_key n = k).

(** The nodes that the pattern [(x:l {key: k})] matches. *)
Definition matching (l : label) (k : str) (g : graph) : list node :=
  filter (λ n, is_node l k n) (nodes g).

Definition keys (l : label) (g : graph) : list str :=
  node_key <$> filter (λ n, node_label n = l) (nodes g).

(** [MERGE (x:l {key: k})]: bind [x] to every matching node, or create
    one when there is none. *)
Definition merge_node (l : label) (k : str) (g : graph) : graph * list nat :=
  match matching l k g with
  | [] =>
      ({| nodes := nodes g ++
                   [{| node_id := next_id g; node_label := l; node_key := k |}];
          edges := edges g;
          next_id := S (next_id g);
          constraints := constraints g |},
       [next_id g])
  | ns => (g, node_id <$> ns)
  end.

Definition connects (f m : nat) (e : edge) : bool :=
  bool_decide (edge_from e = f) && bool_decide (edge_to e = m).

(** [MERGE (f)-[:IMPORTS]->(m)] for bound [f] and [m]. *)
Definition merge_edge (g : graph) (fm : nat * nat) : graph :=
  if existsb (connects fm.1 fm.2) (edges g) then g
  else {| nodes := nodes g;
          edges := edges g ++
                   [{| edge_id := next_id g;
                       edge_from := fm.1; edge_to := fm.2 |}];
          next_id := S (next_id g);
          constraints := constraints g |}.

(** Creating a uniqueness constraint validates the existing data. *)
Definition exec (s : statement) (g : graph) : result graph :=
  match s with
  | CreateConstraint l =>
      if bool_decide (l ∈ constraints g) then Ok g
      else if bool_decide (NoDup (keys l g)) then
        Ok {| nodes := nodes g; edges := edges g; next_id := next_id g;
              constraints := constraints g ++ [l] |}
      else Raise ConstraintError
  | MergeFile path => Ok (merge_node File path g).1
  | MergeImport mod_ path =>
      let '(g1, ms) := merge_node Module_ mod_ g in
      let '(g2, fs) := merge_node File path g1 in
      Ok (foldl merge_edge g2 (m ← ms; f ← fs; [(f, m)]))
  end.

(** What the store saw: each statement it received and, when it
    rejected the statement, the error it answered with. *)
Record entry := { sent : statement; failure : option exn }.

(** The store behind the driver.  [outages] scripts its availability:
    the head tells whether the next statement finds the store
    unreachable; an exhausted script means no further outage. *)
Record store := {
  db : graph;
  outages : list bool;
  journal : list entry
}.

Definition Db (A : Type) : Type := store → store * result A.

#[global] Instance Db_ret : MRet Db := λ A a st, (st, Ok a).
#[global] Instance Db_bind : MBind Db := λ A B f m st,
  match m st with
  | (st', Ok a) => f a st'
  | (st', Raise e) => (st', Raise e)
  end.

(** [sess.run(statement)]: an auto-commit transaction.  A statement that
    fails changes nothing. *)
Definition run (s : statement) : Db unit := λ st,
  let answer :=
    match outages st with
    | true :: _ => Raise ServiceUnavailable
    | _ => exec s (db st)
    end in
  match answer with
  | Ok g =>
      ({| db := g; outages := tail (outages st);
          journal := journal st ++ [{| sent := s; failure := None |}] |},
       Ok tt)
  | Raise e =>
      ({| db := db st; outages := tail (outages st);
          journal := journal st ++ [{| sent := s; failure := Some e |}] |},
       Raise e)
  end.

(** [for x in xs: body(x)]. *)
Fixpoint for_ {A} (xs : list A) (body : A → Db unit) : Db unit :=
  match xs with
  | [] => mret tt
  | x :: xs' => _ ← body x; for_ xs' body
  end.

End Neo4j.

(** [sorted(s)] for a set of strings. *)
Definition sorted (s : gset str) : list str :=
  merge_sort (λ a b, Str.le a b) (elements s).

(** 1) Create uniqueness constraints (one-time ops)
    2) MERGE the File node
    3) MERGE each Module and the IMPORTS relationship *)
Definition build_graph (file_node : str) (imports : gset str)
    : Neo4j.Db unit :=
  _ ← Neo4j.run (Neo4j.CreateConstraint Neo4j.File);
  _ ← Neo4j.run (Neo4j.CreateConstraint Neo4j.Module_);
  _ ← Neo4j.run (Neo4j.MergeFile file_node);
  Neo4j.for_ (sorted imports) (λ mod_,
    Neo4j.run (Neo4j.MergeImport mod_ file_node)).

(* ===================================================================== *)
(** * Part VI: the walk over the code files in [main] *)
(* ===================================================================== *)

(** What [main] has at hand once the repository is cloned: the paths
    that [repo_dir.rglob("*")] yields, in the order in which it yields
    them; for each path the outcome of
    [str(path.relative_to(repo_dir))]; and the standard output, by what
    becomes of [print(f"{rel}: imports {imps}")]: the line is written,
    or [print] raises, as it does with [UnicodeEncodeError] when the
    encoding of the standard output has no code for a character of the
    line. *)
Record checkout := {
  rglob : list Path;
  relative_to : Path → result str;
  stdout : str → gset str → result unit
}.

(** What [main] does that can be observed from outside, besides the
    statements it sends to the store: the library calls of the
    extractors, the lines it prints, and the closing of the driver. *)
Inductive event :=
| Lib (c : call)
| Line (rel : str) (imps : gset str)
| Close
| Done.

(** Computations of [main]: they use the store behind the driver, leave
    a trace of events, and may raise. *)
Definition Main (A : Type) : Type :=
  Neo4j.store → list event * Neo4j.store * result A.

#[global] Instance Main_ret : MRet Main := λ A a st, ([], st, Ok a).
#[global] Instance Main_bind : MBind Main := λ A B f m st,
  match m st with
  | (out, st', Ok a) =>
      let '(out', st'', r) := f a st' in (out ++ out', st'', r)
  | (out, st', Raise e) => (out, st', Raise e)
  end.

Definition of_result {A} (r : result A) : Main A := λ st, ([], st, r).

Definition of_ext {A} (m : Ext A) : Main A := λ st, (Lib <$> m.1, st, m.2).

Definition of_db {A} (m : Neo4j.Db A) : Main A := λ st,
  let '(st', r) := m st in ([], st', r).

Definition emit (e : event) : Main unit := λ st, ([e], st, Ok tt).

(** [for path in paths: body(path)]. *)
Fixpoint for_paths (paths : list Path) (body : Path → Main unit)
    : Main unit :=
  match paths with
  | [] => mret tt
  | path :: paths' => _ ← body path; for_paths paths' body
  end.

(** [path.suffix in {".py", ".js", ".ts"}]. *)
Definition supported (path : Path) : bool :=
  bool_decide (suffix path ∈ [py ".py"; py ".js"; py ".ts"]).

Section Main.
Variable W : world.
Variable C : checkout.

(** [print(f"{rel}: imports {imps}")]. *)
Definition print_imports (rel : str) (imps : gset str) : Main unit := λ st,
  match stdout C rel imps with
  | Ok _ => ([Line rel imps], st, Ok tt)
  | Raise e => ([], st, Raise e)
  end.

(** The body of the loop of [main]. *)
Definition visit_path (path : Path) : Main unit :=
  if supported path then
    rel ← of_result (relative_to C path);
    imps ← of_ext (extract_imports W path);
    _ ← print_imports rel imps;
    of_db (build_graph rel imps)
  else mret tt.

(** 3) Walk code files *)
Definition walk_code_files : Main unit :=
  for_paths (rglob C) visit_path.

(** [main] from step 3 on: the walk, [driver.close()], and the last
    line.  That line, [Done.], is ASCII: every encoding of the standard
    output has a code for each of its characters. *)
Definition main : Main unit :=
  _ ← walk_code_files;
  _ ← emit Close;
  emit Done.
End Main.

(* ===================================================================== *)
(** * Part VII: the vocabulary of the specification *)
(* ===================================================================== *)

(** ** Strings *)

(** The part of [s] before the first [sep]; all of [s] if there is none. *)
Fixpoint before (sep : char) (s : str) : str :=
  match s with
  | [] => []
  | c :: s' => if c =? sep then [] else c :: before sep s'
  end.

(** ** The PythonLike extractor *)

(** [contributes n x]: node [n] is an import statement that names a
    module whose first dotted segment is [x]. *)
Definition contributes (n : Ast.node) (x : str) : Prop :=
  match n with
  | Ast.Import names => ∃ a, a ∈ names ∧ x = before 46 (Ast.name a)
  | Ast.ImportFrom (Some m) _ _ => m ≠ [] ∧ x = before 46 m
  | _ => False
  end.

(** The effect of one iteration of the loop over [ast.walk(tree)]. *)
Definition add_names (mods : gset str) (names : list Ast.alias) : gset str :=
  foldl (λ mods a, mods ∪ {[ before 46 (Ast.name a) ]}) mods names.

Definition visit (mods : gset str) (n : Ast.node) : gset str :=
  match n with
  | Ast.Import names => add_names mods names
  | Ast.ImportFrom module _ _ =>
      if truthy module then mods ∪ {[ before 46 (default [] module) ]}
      else mods
  | _ => mods
  end.

(** ** Worlds and trees used as examples *)

#[global] Instance Path_eq_dec : EqDecision Path.
Proof. solve_decision. Defined.

(** A world with one file: [p] holds [text] or cannot be read, and the
    parser answers [tree] for that text.  Any other path does not exist
    and any other text is rejected. *)
Definition single_file (p : Path) (text : result str)
    (tree : result Ast.node) : world :=
  {| file_text q := if decide (q = p) then text else Raise OSError;
     parse source :=
       if decide (Ok source = text) then tree else Raise SyntaxError |}.

Definition plain (x : string) : Ast.alias :=
  {| Ast.name := py x; Ast.asname := None |}.

(** [import os.path] and [from os.path import join], on two lines. *)
Definition os_path_source : str :=
  py "import os.path" ++ [10] ++ py "from os.path import join".

Definition os_path_tree : Ast.node :=
  Ast.Other "Module"
    [Ast.Import [plain "os.path"];
     Ast.ImportFrom (Some (py "os.path")) [plain "join"] 0].

(** [from . import sibling]: a relative import without a module name. *)
Definition relative_source : str := py "from . import sibling".

Definition relative_tree : Ast.node :=
  Ast.Other "Module" [Ast.ImportFrom None [plain "sibling"] 1].

(** The statement [import json]. *)
Definition import_json : Ast.node := Ast.Import [plain "json"].

(** [def load(): import json], the import being the body of the
    function. *)
Definition in_function_source : str :=
  py "def load():" ++ [10] ++ py "    import json".

Definition in_function_tree : Ast.node :=
  Ast.Other "Module"
    [Ast.Other "FunctionDef" [Ast.Other "arguments" []; import_json]].

(** [try: import json / except ImportError: pass]. *)
Definition in_try_source : str :=
  py "try:" ++ [10] ++ py "    import json" ++ [10] ++
  py "except ImportError:" ++ [10] ++ py "    pass".

Definition in_try_tree : Ast.node :=
  Ast.Other "Module"
    [Ast.Other "Try"
       [import_json;
        Ast.Other "ExceptHandler"
          [Ast.Other "Name" [Ast.Other "Load" []]; Ast.Other "Pass" []]]].

Definition a_py : Path := {| path_str := py "a.py"; suffix := py ".py" |}.

Definition b_js : Path := {| path_str := py "b.js"; suffix := py ".js" |}.

Definition readme_md : Path :=
  {| path_str := py "README.md"; suffix := py ".md" |}.

(** Worlds in which [a.py] holds an example source and the parser
    returns its tree. *)
Definition os_path_world : world :=
  single_file a_py (Ok os_path_source) (Ok os_path_tree).

Definition in_function_world : world :=
  single_file a_py (Ok in_function_source) (Ok in_function_tree).

(** [n] occurs in [tree], [d] levels below its root. *)
Inductive at_depth : nat → Ast.node → Ast.node → Prop :=
| at_root n : at_depth 0 n n
| at_child d n child class children :
    child ∈ children →
    at_depth d n child →
    at_depth (S d) n (Ast.Other class children).

(** The import statements among the statements of the module body. *)
Definition is_import (n : Ast.node) : bool :=
  match n with
  | Ast.Import _ | Ast.ImportFrom _ _ _ => true
  | _ => false
  end.

Definition module_level_imports (tree : Ast.node) : list Ast.node :=
  filter (λ n, is_import n) (Ast.iter_child_nodes tree).

(** ** The JSLike extractor *)

Definition whitespace (c : char) : Prop := Re.isspace c = true.

(** The single and the double quote. *)
Definition quote (c : char) : Prop := c = 39 ∨ c = 34.

(** [js_form w whole]: the text [w] is of one of the two forms

      import <bindings> from <quote>whole<quote>
      require(<quote>whole<quote>)

    where bindings is a non-empty stretch of one line, white space stands
    where the forms have it and may precede the opening quote, and
    [whole], the module string, is not empty and holds no quote. *)
Inductive js_form : str → str → Prop :=
| import_from s1 bindings s2 s3 ws q1 whole q2 :
    whitespace s1 → bindings ≠ [] → 10 ∉ bindings →
    whitespace s2 → whitespace s3 → Forall whitespace ws →
    quote q1 → whole ≠ [] → Forall (λ c, ¬ quote c) whole → quote q2 →
    js_form (py "import" ++ [s1] ++ bindings ++ [s2] ++ py "from" ++ [s3]
             ++ ws ++ [q1] ++ whole ++ [q2]) whole
| require_call ws q1 whole q2 :
    Forall whitespace ws →
    quote q1 → whole ≠ [] → Forall (λ c, ¬ quote c) whole → quote q2 →
    js_form (py "require(" ++ ws ++ [q1] ++ whole ++ [q2]) whole.

Definition begins_with_dot (s : str) : Prop := ∃ tl, s = 46 :: tl.

(** The effect of one iteration of the loop over the matches, for a match
    whose module string is [whole]. *)
Definition js_visit (mods : gset str) (whole : str) : gset str :=
  if negb (Str.startswith (py ".") (before 47 whole))
  then mods ∪ {[ before 47 whole ]}
  else mods.

(** [whole] is the module string of match [m] of the pattern in [text]:
    the match lies in [text], is of one of the two forms, and its group
    [mod] is [whole]. *)
Definition module_string (text : str) (m : Re.Match) (whole : str) : Prop :=
  Re.group m "mod" = Ok whole
  ∧ ∃ pre w, text = pre ++ w ++ Re.rest m ∧ js_form w whole.

Definition group_mod (m : Re.Match) : str :=
  match Re.group m "mod" with
  | Ok whole => whole
  | Raise _ => []
  end.

Definition local_import : str := py "import x from './local'".

Definition lodash_import : str := py "import x from 'lodash/fp'".

Definition local_import_world : world :=
  single_file b_js (Ok local_import) (Raise SyntaxError).

(** A line comment: [// require('x')]. *)
Definition commented_require : str := py "// require('x')".

(** A statement whose only content is a string literal in double quotes:
    [const hint = <literal>;] where the literal reads
    [call require('x') first]. *)
Definition literal_body : str := py "call require('x') first".

Definition literal_require : str :=
  py "const hint = " ++ [34] ++ literal_body ++ [34] ++ py ";".

(** The characters that end a line of JavaScript source. *)
Definition line_terminators : list char := [10; 13; 8232; 8233].

(** The whole text is one line comment. *)
Definition is_line_comment (text : str) : Prop :=
  ∃ body, text = py "//" ++ body ∧ ∀ c, c ∈ line_terminators → c ∉ body.

(** [body] can stand between double quotes as a string literal: it has no
    double quote, no backslash and no line terminator. *)
Definition is_literal_body (body : str) : Prop :=
  ∀ c, c ∈ [34; 92] ++ line_terminators → c ∉ body.

(** A JSLike file whose bytes are not valid UTF-8: reading it raises. *)
Definition undecodable_world : world :=
  single_file b_js (Raise UnicodeDecodeError) (Raise SyntaxError).

(** The scenario of the specification: [a.py] holds [import json], and
    [b.js] holds [const x = require('react-dom')] and [import './a'] on
    two lines. *)
Definition scenario_a : str := py "import json".

Definition scenario_b : str :=
  py "const x = require('react-dom')" ++ [10] ++ py "import './a'".

Definition scenario_world : world :=
  {| file_text q :=
       if decide (q = a_py) then Ok scenario_a
       else if decide (q = b_js) then Ok scenario_b
       else Raise OSError;
     parse source :=
       if decide (source = scenario_a)
       then Ok (Ast.Other "Module" [import_json])
       else Raise SyntaxError |}.

(** The modules [extract_imports] found, none when it raised. *)
Definition found (r : Ext (gset str)) : gset str :=
  match r.2 with
  | Ok mods => mods
  | Raise _ => ∅
  end.

(** ** Further vocabulary for the extractors *)

(** [needle in text], for strings. *)
Fixpoint contains (needle text : str) : bool :=
  Str.startswith needle text
  || match text with
     | [] => false
     | _ :: text' => contains needle text'
     end.

(** A call [require(<quote>whole<quote>)] and nothing else. *)
Definition require_call_text (q1 : char) (whole : str) (q2 : char) : str :=
  py "require(" ++ [q1] ++ whole ++ [q2].

Definition js_world (text : str) : world :=
  single_file b_js (Ok text) (Raise SyntaxError).

Definition lodash_world : world := js_world lodash_import.

(** An import for its side effects only. *)
Definition polyfill_import : str := py "import 'polyfill'".

Definition polyfill_world : world := js_world polyfill_import.

#[global] Instance quote_dec c : Decision (quote c).
Proof. unfold quote. apply _. Defined.

(** The number of quote characters in a text. *)
Definition quote_count (s : list char) : nat := length (filter quote s).

(** What a library call of an extraction for [p] may be: a read of [p]
    itself, the parser on the text of [p] when [p] is PythonLike, the
    pattern on the text of [p] when [p] is JSLike. *)
Definition call_for (W : world) (p : Path) (c : call) : Prop :=
  match c with
  | ReadText q => q = p
  | AstParse source => suffix p = py ".py" ∧ file_text W p = Ok source
  | ReFinditer text =>
      suffix p ∈ [py ".js"; py ".ts"] ∧ file_text W p = Ok text
  end.

(** ** The graph builder *)

Import Neo4j.

Abbreviation str_le := (λ a b : str, Is_true (Str.le a b)).

(** The statements [build_graph] sends for one file, in order. *)
Definition batch (file_node : str) (imports : gset str) : list statement :=
  [CreateConstraint File; CreateConstraint Module_; MergeFile file_node]
  ++ ((λ mod_, MergeImport mod_ file_node) <$> sorted imports).

(** A store that is never out of reach. *)
Definition reliable (g : graph) : store :=
  {| db := g; outages := []; journal := [] |}.

(** One graph extends another: what was there is still there, untouched
    and in the same place. *)
Definition extends (g g' : graph) : Prop :=
  nodes g `prefix_of` nodes g'
  ∧ edges g `prefix_of` edges g'
  ∧ constraints g `prefix_of` constraints g'.

(** The entries a computation adds to the journal. *)
Definition added {A} (m : Db A) (st : store) : list entry :=
  drop (length (journal st)) (journal (m st).1).

(** The graph after the statements [stmts] have all been committed. *)
Definition commit (g : graph) (s : statement) : graph :=
  match exec s g with
  | Ok g' => g'
  | Raise _ => g
  end.

Definition committed (stmts : list statement) (g : graph) : graph :=
  foldl commit g stmts.

Definition endpoints (e : edge) : nat * nat := (edge_from e, edge_to e).

Definition fresh_node (l : label) (k : str) (g : graph) : node :=
  {| node_id := next_id g; node_label := l; node_key := k |}.

Definition import_pairs (ms fs : list nat) : list (nat * nat) :=
  m ← ms; f ← fs; [(f, m)].

(** The sorted list does not depend on the order in which the set hands
    out its elements. *)
Definition order_independent (imports : gset str) : Prop :=
  ∀ l, l ≡ₚ elements imports → merge_sort str_le l = sorted imports.

(** The store is out of reach when the call begins. *)
Definition unreachable (st : store) : bool :=
  match outages st with
  | true :: _ => true
  | _ => false
  end.

(** Edge [e] joins the file at [path] to the module called [name]. *)
Definition joins (g : graph) (path name : str) (e : edge) : bool :=
  existsb (λ nf,
    existsb (λ nm, bool_decide (endpoints e = (node_id nf, node_id nm)))
      (matching Module_ name g))
    (matching File path g).

(** The [IMPORTS] edges from the file at [path] to the module [name]. *)
Definition imports_edges (g : graph) (path name : str) : list edge :=
  filter (λ e, joins g path name e) (edges g).

(** The invariants of the data model. *)
Record invariants (g : graph) : Prop := {
  unique_paths : NoDup (keys File g);
  unique_names : NoDup (keys Module_ g);
  single_edges : ∀ path name, (length (imports_edges g path name) ≤ 1)%nat
}.

(** What the statements maintain: distinct keys per label, and no two
    edges between the same two nodes. *)
Definition tidy (g : graph) : Prop :=
  NoDup (keys File g) ∧ NoDup (keys Module_ g)
  ∧ NoDup (endpoints <$> edges g).

(** A store that was never written to, with any script of outages. *)
Definition new_store (script : list bool) : store :=
  {| db := empty; outages := script; journal := [] |}.

(** The store after a sequence of calls of [build_graph], whatever their
    results. *)
Definition after (calls : list (str * gset str)) (st : store) : store :=
  foldl (λ st call, (build_graph call.1 call.2 st).1) st calls.

(** There is a module node called [name], and every file node at [path]
    has an edge to every module node called [name]. *)
Definition linked (g : graph) (path name : str) : Prop :=
  matching Module_ name g ≠ []
  ∧ ∀ nf nm, nf ∈ matching File path g → nm ∈ matching Module_ name g →
             (node_id nf, node_id nm) ∈ endpoints <$> edges g.

(** The graph after a run of statements on a store that is never out of
    reach: the run stops at the first statement the graph refuses. *)
Fixpoint exec_all (stmts : list statement) (g : graph) : graph :=
  match stmts with
  | [] => g
  | s :: rest =>
      match exec s g with
      | Ok g' => exec_all rest g'
      | Raise _ => g
      end
  end.

(** How a call can leave the graph: the creation of the first constraint
    was refused, or that of the second, or everything was merged. *)
Inductive outcome (file_node : str) (imports : gset str) (g : graph) : Prop :=
| refused_first e :
    exec (CreateConstraint File) g = Raise e →
    outcome file_node imports g
| refused_second e :
    File ∈ constraints g →
    exec (CreateConstraint Module_) g = Raise e →
    outcome file_node imports g
| merged :
    File ∈ constraints g → Module_ ∈ constraints g →
    matching File file_node g ≠ [] →
    (∀ n, n ∈ sorted imports → linked g file_node n) →
    outcome file_node imports g.

(** ** The graph as the data model sees it *)

(** Ids are handed out in increasing order: every node has an id of its
    own, and the ids in use lie below [next_id]. *)
Record well_formed (g : graph) : Prop := {
  ids_distinct : NoDup (node_id <$> nodes g);
  ids_bounded : ∀ n, n ∈ nodes g → (node_id n < next_id g)%nat;
  ends_bounded : ∀ e, e ∈ edges g →
    (edge_from e < next_id g)%nat ∧ (edge_to e < next_id g)%nat
}.

(** The [IMPORTS] relationships as pairs of a path and a module name:
    for each edge, the file at its source and the module at its target. *)
Definition imports_of (g : graph) : gset (str * str) :=
  list_to_set
    (e ← edges g;
     nf ← filter (λ n, node_label n = File ∧ node_id n = edge_from e) (nodes g);
     nm ← filter (λ n, node_label n = Module_ ∧ node_id n = edge_to e) (nodes g);
     [(node_key nf, node_key nm)]).

(** The content of a graph: the paths of its files, the names of its
    modules, and which file imports which module. *)
Record view := {
  files : gset str;
  modules : gset str;
  imports : gset (str * str)
}.

Definition view_of (g : graph) : view :=
  {| files := list_to_set (keys File g);
     modules := list_to_set (keys Module_ g);
     imports := imports_of g |}.

(** What a committed statement adds to the content. *)
Definition denote (v : view) (s : statement) : view :=
  match s with
  | CreateConstraint _ => v
  | MergeFile path =>
      {| files := files v ∪ {[ path ]}; modules := modules v;
         imports := imports v |}
  | MergeImport mod_ path =>
      {| files := files v ∪ {[ path ]}; modules := modules v ∪ {[ mod_ ]};
         imports := imports v ∪ {[ (path, mod_) ]} |}
  end.

(** What recording a file with its modules adds to the content. *)
Definition record_file (v : view) (file_node : str) (imps : gset str) : view :=
  {| files := files v ∪ {[ file_node ]};
     modules := modules v ∪ imps;
     imports := imports v ∪ set_map (λ mod_, (file_node, mod_)) imps |}.

Definition record_files (v : view) (calls : list (str * gset str)) : view :=
  foldl (λ v call, record_file v call.1 call.2) v calls.

(** No two files have the same path and no two modules the same name.
    Nothing is asked of the edges. *)
Definition distinct_keys (g : graph) : Prop :=
  NoDup (keys File g) ∧ NoDup (keys Module_ g).

(** A graph in which the same file and module are joined by two edges:
    its keys are distinct, its edges are not. *)
Definition doubled_edge : graph :=
  {| nodes := [{| node_id := 0; node_label := File; node_key := py "a.py" |};
               {| node_id := 1; node_label := Module_;
                  node_key := py "json" |}];
     edges := [{| edge_id := 2; edge_from := 0; edge_to := 1 |};
               {| edge_id := 3; edge_from := 0; edge_to := 1 |}];
     next_id := 4;
     constraints := [] |}.

(** The store is in reach for the next [n] statements. *)
Definition in_reach (n : nat) (st : store) : Prop :=
  true ∉ take n (outages st).

(** ** The walk of [main] *)

(** The parts of what a computation of [main] leaves behind. *)
Definition trace {A} (r : list event * store * result A) : list event := r.1.1.

Definition store_after {A} (r : list event * store * result A) : store := r.1.2.

Definition result_of {A} (r : list event * store * result A) : result A := r.2.

Definition js_like (p : Path) : Prop := suffix p ∈ [py ".js"; py ".ts"].

(** The same checkout with another listing. *)
Definition with_rglob (C : checkout) (paths : list Path) : checkout :=
  {| rglob := paths; relative_to := relative_to C; stdout := stdout C |}.

(** The files a walk over [paths] records when nothing fails: every
    supported path, under its relative name, with the modules found in
    it. *)
Definition calls_for (W : world) (C : checkout) (paths : list Path)
    : list (str * gset str) :=
  omap (λ p,
    if supported p then
      match relative_to C p with
      | Ok rel => Some (rel, found (extract_imports W p))
      | Raise _ => None
      end
    else None) paths.

(** Path [p] cannot stop the walk: if it is supported, its relative name
    is known, it can be read when it is JSLike, and the line that
    reports its modules can be printed. *)
Definition passes (W : world) (C : checkout) (p : Path) : Prop :=
  supported p = true →
  ∃ rel, relative_to C p = Ok rel
         ∧ (js_like p → ∃ text, file_text W p = Ok text)
         ∧ stdout C rel (found (extract_imports W p)) = Ok tt.

(** The checkout of the scenario, with a file that is not code. *)
Definition scenario_checkout : checkout :=
  {| rglob := [a_py; readme_md; b_js];
     relative_to p := Ok (path_str p);
     stdout rel imps := Ok tt |}.

(** A checkout whose second file cannot be decoded. *)
Definition undecodable_checkout : checkout :=
  {| rglob := [readme_md; b_js; a_py];
     relative_to p := Ok (path_str p);
     stdout rel imps := Ok tt |}.





(** The events of the walk: library calls and printed lines, but neither
    the closing of the driver nor the last line. *)
Definition during_walk (ev : event) : Prop :=
  match ev with
  | Lib _ | Line _ _ => True
  | Close | Done => False
  end.

(** The ways the visit of a path can go: the path is passed over; its
    relative name cannot be had; it is JSLike and cannot be read; its
    line cannot be printed; or its modules are extracted, printed and
    sent to the store. *)
Inductive visited (W : world) (C : checkout) (p : Path) (st : store)
    : list event * store * result unit → Prop :=
| visited_skip :
    supported p = false → visited W C p st ([], st, Ok tt)
| visited_no_name e :
    supported p = true → relative_to C p = Raise e →
    visited W C p st ([], st, Raise e)
| visited_no_imports rel e :
    supported p = true → relative_to C p = Ok rel →
    js_like p → file_text W p = Raise e →
    visited W C p st ([Lib (ReadText p)], st, Raise e)
| visited_no_line rel log imps e :
    supported p = true → relative_to C p = Ok rel →
    extract_imports W p = (log, Ok imps) →
    stdout C rel imps = Raise e →
    visited W C p st (Lib <$> log, st, Raise e)
| visited_build rel log imps :
    supported p = true → relative_to C p = Ok rel →
    extract_imports W p = (log, Ok imps) →
    (js_like p → ∃ text, file_text W p = Ok text) →
    stdout C rel imps = Ok tt →
    visited W C p st
      ((Lib <$> log) ++ [Line rel imps],
       (build_graph rel imps st).1, (build_graph rel imps st).2).

(* ===================================================================== *)
(** * Part VIII: properties of the extractors *)
(* ===================================================================== *)

(** ** Strings *)

Lemma split_before sep s : ∃ segs, Str.split sep s = before sep s :: segs.
Proof.
  induction s as [|c s [segs IH]]; simpl; [by eexists|].
  destruct (c =? sep); [by eexists|]. rewrite IH. by eexists.
Qed.

Lemma split_item0 sep s : item0 (Str.split sep s) = Ok (before sep s).
Proof. destruct (split_before sep s) as [segs ->]. done. Qed.

Lemma before_no_sep sep s : sep ∉ before sep s.
Proof.
  induction s as [|c s IH]; simpl; [apply not_elem_of_nil|].
  destruct (N.eqb_spec c sep) as [->|Hne]; [apply not_elem_of_nil|].
  rewrite elem_of_cons. intros [->|?]; done.
Qed.

Lemma before_prefix sep s : before sep s `prefix_of` s.
Proof.
  induction s as [|c s IH]; simpl; [done|].
  destruct (c =? sep); [apply prefix_nil|]. by apply prefix_cons.
Qed.

Lemma startswith_dot s : Str.startswith (py ".") s = true ↔ ∃ s', s = 46 :: s'.
Proof.
  change (py ".") with [46].
  destruct s as [|c s]; cbn [Str.startswith].
  - split; [done|]. by intros [? ?].
  - rewrite andb_true_r, N.eqb_eq. split.
    + intros <-. by eexists.
    + by intros [? [= <- _]].
Qed.

(** The first segment starts with a dot exactly when the string does. *)
Lemma before_startswith_dot sep s :
  sep ≠ 46 →
  Str.startswith (py ".") (before sep s) = Str.startswith (py ".") s.
Proof.
  change (py ".") with [46].
  intros Hsep. destruct s as [|c s]; cbn [before Str.startswith]; [done|].
  destruct (N.eqb_spec c sep) as [->|Hne]; cbn [Str.startswith]; [|done].
  rewrite andb_true_r. symmetry. by apply N.eqb_neq.
Qed.

(** ** The monad *)

Lemma bind_ret_l {A B} (a : A) (f : A → Ext B) : (ret a ≫= f) = f a.
Proof. unfold mbind, Ext_bind, bind, ret. by destruct (f a). Qed.

Lemma bind_lift_ok {A B} (a : A) (f : A → Ext B) : (lift (Ok a) ≫= f) = f a.
Proof. apply bind_ret_l. Qed.

(** A loop whose body neither calls out nor raises is a fold. *)
Lemma for_each_pure {A B} (step : B → A → B) body (xs : list A) (acc : B) :
  (∀ b a, body b a = ret (step b a)) →
  for_each xs acc body = ret (foldl step acc xs).
Proof.
  intros Hbody. revert acc.
  induction xs as [|x xs IH]; intros acc; simpl; [done|].
  by rewrite Hbody, bind_ret_l, IH.
Qed.

(** ** The PythonLike extractor *)

Lemma elem_of_add_names x names mods :
  x ∈ add_names mods names ↔
  x ∈ mods ∨ ∃ a, a ∈ names ∧ x = before 46 (Ast.name a).
Proof.
  unfold add_names. revert mods.
  induction names as [|a names IH]; intros mods; simpl.
  - split; [auto|]. intros [?|(a & Ha & _)]; [done|]. by apply elem_of_nil in Ha.
  - rewrite IH, elem_of_union, elem_of_singleton. split.
    + intros [[? | ->]|(b & Hb & ->)]; [by left| right ..].
      * exists a. split; [left|done].
      * exists b. split; [by right|done].
    + intros [?|(b & Hb & ->)]; [by left; left|].
      apply elem_of_cons in Hb as [->|Hb]; [by left; right|].
      right. by exists b.
Qed.

Lemma elem_of_visit x n mods :
  x ∈ visit mods n ↔ x ∈ mods ∨ contributes n x.
Proof.
  destruct n as [names|module names level|a|class children]; simpl.
  - apply elem_of_add_names.
  - destruct module as [[|c m]|]; simpl.
    + split; [auto|]. by intros [?|[? _]].
    + rewrite elem_of_union, elem_of_singleton. split.
      * intros [? | ->]; [by left|by right].
      * intros [?|[_ ->]]; [by left|by right].
    + split; [auto|]. by intros [?|?].
  - split; [auto|]. by intros [?|?].
  - split; [auto|]. by intros [?|?].
Qed.

Lemma elem_of_foldl_visit x ns mods :
  x ∈ foldl visit mods ns ↔ x ∈ mods ∨ ∃ n, n ∈ ns ∧ contributes n x.
Proof.
  revert mods. induction ns as [|n ns IH]; intros mods; simpl.
  - split; [auto|]. intros [?|(n & Hn & _)]; [done|]. by apply elem_of_nil in Hn.
  - rewrite IH, elem_of_visit. split.
    + intros [[?|?]|(n' & Hn' & ?)]; [by left| right ..].
      * exists n. split; [left|done].
      * exists n'. split; [by right|done].
    + intros [?|(n' & Hn' & ?)]; [by left; left|].
      apply elem_of_cons in Hn' as [->|Hn']; [by left; right|].
      right. by exists n'.
Qed.

Section PythonExtractor.

Variable W : world.

Lemma python_loop nodes mods :
  for_each nodes mods (λ mods node,
    match node with
    | Ast.Import names =>
        for_each names mods (λ mods alias,
          top ← lift (item0 (Str.split 46 (Ast.name alias)));
          ret (mods ∪ {[ top ]}))
    | Ast.ImportFrom module _ _ =>
        if truthy module then
          top ← lift (item0 (Str.split 46 (default [] module)));
          ret (mods ∪ {[ top ]})
        else ret mods
    | _ => ret mods
    end) = ret (foldl visit mods nodes).
Proof.
  apply for_each_pure. intros b [names|module names level|a|class children];
    cbv beta iota; cbn [visit]; [|destruct (truthy module)|..]; try done.
  - apply for_each_pure. intros b' a.
    by rewrite split_item0, bind_lift_ok.
  - by rewrite split_item0, bind_lift_ok.
Qed.

(** A file that is read and parsed: the result is the fold of [visit]
    over the nodes of its tree. *)
Lemma extract_python_imports_parsed p text tree :
  file_text W p = Ok text →
  parse W text = Ok tree →
  extract_python_imports W p =
    ([ReadText p; AstParse text], Ok (foldl visit ∅ (Ast.walk tree))).
Proof.
  intros Hread Hparse. unfold extract_python_imports.
  unfold read_text, ast_parse. rewrite Hread.
  cbn [mbind Ext_bind bind try_except]. rewrite Hparse.
  cbn [mbind Ext_bind bind try_except ret app].
  rewrite python_loop. done.
Qed.

(** A file that cannot be read: the exception is caught. *)
Lemma extract_python_imports_unreadable p e :
  file_text W p = Raise e →
  extract_python_imports W p = ([ReadText p], Ok ∅).
Proof.
  intros Hread. unfold extract_python_imports, read_text.
  rewrite Hread. done.
Qed.

(** A file that cannot be parsed: the exception is caught. *)
Lemma extract_python_imports_unparsable p text e :
  file_text W p = Ok text →
  parse W text = Raise e →
  extract_python_imports W p = ([ReadText p; AstParse text], Ok ∅).
Proof.
  intros Hread Hparse. unfold extract_python_imports, read_text, ast_parse.
  rewrite Hread. cbn [mbind Ext_bind bind try_except]. rewrite Hparse. done.
Qed.

(** The PythonLike extractor never raises. *)
Lemma extract_python_imports_total p :
  ∃ log mods, extract_python_imports W p = (log, Ok mods).
Proof.
  destruct (file_text W p) as [text|e] eqn:Hread.
  - destruct (parse W text) as [tree|e] eqn:Hparse.
    + erewrite extract_python_imports_parsed by done. by do 2 eexists.
    + erewrite extract_python_imports_unparsable by done. by do 2 eexists.
  - erewrite extract_python_imports_unreadable by done. by do 2 eexists.
Qed.

End PythonExtractor.

(** ** Worlds and trees used as examples *)

Lemma at_depth_walk d n tree : at_depth d n tree → n ∈ Ast.walk tree.
Proof.
  induction 1 as [n|d n child class children Hchild _ IH].
  - destruct n; left.
  - cbn [Ast.walk]. right.
    apply list_elem_of_In, in_flat_map. exists child.
    split; by apply list_elem_of_In.
Qed.

(** ** C2 *)

(** C2. For a PythonLike file that is read and parsed, the extracted set
    holds exactly the first dotted segment of every name of an [import]
    statement and of the module of every [from ... import] statement
    that has one; a relative import without a module name adds nothing.
    [import os.path] with [from os.path import join] gives the set
    holding only [os]. *)
Theorem python_records_first_segments W p text tree :
  file_text W p = Ok text →
  parse W text = Ok tree →
  ∃ mods,
    extract_python_imports W p = ([ReadText p; AstParse text], Ok mods)
    ∧ (∀ x, x ∈ mods ↔ ∃ n, n ∈ Ast.walk tree ∧ contributes n x)
    ∧ (tree = os_path_tree → mods = {[ py "os" ]})
    ∧ (tree = relative_tree → mods = ∅).
Proof.
  intros Hread Hparse. exists (foldl visit ∅ (Ast.walk tree)).
  split; [by apply extract_python_imports_parsed|].
  split; [|split].
  - intros x. rewrite elem_of_foldl_visit. split.
    + intros [H|H]; [by apply not_elem_of_empty in H|done].
    + by right.
  - intros ->. vm_compute. reflexivity.
  - intros ->. vm_compute. reflexivity.
Qed.

Lemma python_records_first_segments_witness :
  file_text os_path_world a_py = Ok os_path_source
  ∧ parse os_path_world os_path_source = Ok os_path_tree
  ∧ ∃ mods,
      extract_python_imports os_path_world a_py
      = ([ReadText a_py; AstParse os_path_source], Ok mods)
      ∧ (∀ x, x ∈ mods ↔ ∃ n, n ∈ Ast.walk os_path_tree ∧ contributes n x)
      ∧ (os_path_tree = os_path_tree → mods = {[ py "os" ]})
      ∧ (os_path_tree = relative_tree → mods = ∅).
Proof.
  split; [reflexivity|]. split; [reflexivity|].
  apply (python_records_first_segments
           os_path_world a_py os_path_source os_path_tree);
    reflexivity.
Defined.

(** ** C10 *)

(** C10. An import statement is recorded at whatever depth of the tree
    it stands: in a function body or in a [try] block as well as at
    module level. *)
Theorem python_imports_at_any_depth W p text tree d n x :
  file_text W p = Ok text →
  parse W text = Ok tree →
  at_depth d n tree →
  contributes n x →
  ∃ mods,
    extract_python_imports W p = ([ReadText p; AstParse text], Ok mods)
    ∧ x ∈ mods
    ∧ (tree = in_function_tree ∨ tree = in_try_tree →
       module_level_imports tree = [] ∧ mods = {[ py "json" ]}).
Proof.
  intros Hread Hparse Hdepth Hn. exists (foldl visit ∅ (Ast.walk tree)).
  split; [by apply extract_python_imports_parsed|]. split.
  - apply elem_of_foldl_visit. right. exists n.
    split; [by eapply at_depth_walk|done].
  - intros [-> | ->]; split; vm_compute; reflexivity.
Qed.

Lemma python_imports_at_any_depth_witness :
  file_text in_function_world a_py = Ok in_function_source
  ∧ parse in_function_world in_function_source = Ok in_function_tree
  ∧ at_depth 2 import_json in_function_tree
  ∧ contributes import_json (py "json")
  ∧ ∃ mods,
      extract_python_imports in_function_world a_py
      = ([ReadText a_py; AstParse in_function_source], Ok mods)
      ∧ py "json" ∈ mods
      ∧ (in_function_tree = in_function_tree ∨ in_function_tree = in_try_tree →
         module_level_imports in_function_tree = [] ∧ mods = {[ py "json" ]}).
Proof.
  assert (Hdepth : at_depth 2 import_json in_function_tree).
  { eapply at_child; [left|]. eapply at_child; [right; left|]. apply at_root. }
  assert (Hstmt : contributes import_json (py "json")).
  { exists (plain "json"). split; [left|reflexivity]. }
  split; [reflexivity|]. split; [reflexivity|].
  split; [exact Hdepth|]. split; [exact Hstmt|].
  apply (python_imports_at_any_depth in_function_world a_py
           in_function_source in_function_tree 2 import_json (py "json"));
    [reflexivity|reflexivity|exact Hdepth|exact Hstmt].
Defined.

(** ** The regular expression engine *)

Module ReFacts.

Import Re.

Lemma strip_Some p s s' : strip p s = Some s' ↔ s = p ++ s'.
Proof.
  revert s. induction p as [|a p IH]; intros s; simpl.
  - split; [by intros [= ->]|by intros ->].
  - destruct s as [|b s]; [by split|].
    destruct (N.eqb_spec a b) as [->|Hne].
    + rewrite IH. split; [by intros ->|by intros [= ->]].
    + split; [done|]. by intros [= <- _].
Qed.

Section Engine.

Context {R : Type}.
Implicit Types (cont : str → groups → option R) (x : R).

Lemma repeat_greedy_sound k min s (c1 : str → option R) x :
  repeat_greedy k min s c1 = Some x →
  ∃ w s', s = w ++ s' ∧ Forall (λ c, accepts k c = true) w
          ∧ (min ≤ length w)%nat ∧ c1 s' = Some x.
Proof.
  revert min. induction s as [|c s IH]; intros min; cbn [repeat_greedy].
  - destruct min; [|done]. intros H. by exists [], [].
  - assert (Hstop : match min with O => c1 (c :: s) | S _ => None end
                    = Some x →
                    ∃ w s', c :: s = w ++ s'
                            ∧ Forall (λ c, accepts k c = true) w
                            ∧ (min ≤ length w)%nat ∧ c1 s' = Some x).
    { destruct min; [|done]. intros H. by exists [], (c :: s). }
    destruct (accepts k c) eqn:Hc; [|done].
    destruct (repeat_greedy k (pred min) s c1) as [y|] eqn:Hrec; [|done].
    intros [= ->]. destruct (IH _ Hrec) as (w & s' & -> & Hw & Hmin & Hx).
    exists (c :: w), s'. split; [done|]. split; [by constructor|].
    split; [simpl; lia|done].
Qed.

Lemma repeat_greedy_complete k min w s' (c1 : str → option R) x :
  Forall (λ c, accepts k c = true) w → (min ≤ length w)%nat →
  c1 s' = Some x →
  is_Some (repeat_greedy k min (w ++ s') c1).
Proof.
  intros Hw. revert min. induction Hw as [|c w Hc Hw IH]; intros min Hmin Hx.
  - destruct min; [|simpl in Hmin; lia].
    destruct s' as [|c s']; cbn [app repeat_greedy]; [by rewrite Hx|].
    destruct (accepts k c); [|by rewrite Hx].
    destruct (repeat_greedy k (pred 0) s' c1); [done|by rewrite Hx].
  - cbn [app repeat_greedy]. rewrite Hc.
    destruct (IH (pred min)) as [y ->]; [simpl in Hmin; lia|done..].
Qed.

Lemma run_sound r : ∀ s g cont x,
  run r s g cont = Some x →
  ∃ w g' s', s = w ++ s' ∧ den r w g' ∧ cont s' (g' ++ g) = Some x.
Proof.
  induction r as [|p|k|r1 IH1 r2 IH2|r1 IH1 r2 IH2|min k|name r IH];
    intros s g cont x; cbn [run].
  - intros H. exists [], [], s. split; [done|]. split; [constructor|done].
  - destruct (strip p s) as [s'|] eqn:Hp; [|done]. intros H.
    apply strip_Some in Hp as ->.
    exists p, [], s'. split; [done|]. split; [constructor|done].
  - destruct s as [|c s]; [done|]. destruct (accepts k c) eqn:Hc; [|done].
    intros H. exists [c], [], s. split; [done|]. split; [by constructor|done].
  - intros H. apply IH1 in H as (w1 & g1 & s1 & -> & H1 & H).
    apply IH2 in H as (w2 & g2 & s2 & -> & H2 & H).
    exists (w1 ++ w2), (g2 ++ g1), s2.
    split; [by rewrite (assoc_L (++))|]. split; [by constructor|].
    by rewrite <-(assoc_L (++)).
  - destruct (run r1 s g cont) as [y|] eqn:H1.
    + intros [= ->]. apply IH1 in H1 as (w & g' & s' & -> & H1 & H).
      exists w, g', s'. split; [done|]. split; [by apply den_alt_l|done].
    + intros H. apply IH2 in H as (w & g' & s' & -> & H2 & H).
      exists w, g', s'. split; [done|]. split; [by apply den_alt_r|done].
  - intros H. apply repeat_greedy_sound in H as (w & s' & -> & Hw & Hmin & H).
    exists w, [], s'. split; [done|]. split; [by constructor|done].
  - intros H. apply IH in H as (w & g' & s' & -> & Hr & H).
    exists w, ((name, w) :: g'), s'. split; [done|].
    split; [by constructor|].
    rewrite length_app, Nat.add_sub, take_app_length in H. done.
Qed.

Lemma run_complete r w g' :
  den r w g' →
  ∀ s' g cont x, cont s' (g' ++ g) = Some x →
  is_Some (run r (w ++ s') g cont).
Proof.
  induction 1 as [|p|k c Hc|r1 r2 w1 w2 g1 g2 _ IH1 _ IH2
                  |r1 r2 w g1 _ IH|r1 r2 w g1 _ IH|min k w Hw Hmin
                  |name r w g1 _ IH];
    intros s' g cont x Hx; cbn [run]; cbn [app] in Hx |- *.
  - by rewrite Hx.
  - assert (strip p (p ++ s') = Some s') as -> by by apply strip_Some.
    by rewrite Hx.
  - cbn [app]. by rewrite Hc, Hx.
  - rewrite <-(assoc_L (++)) in Hx. rewrite <-(assoc_L (++)).
    destruct (IH2 s' (g1 ++ g) cont x Hx) as [y Hy].
    by eapply IH1.
  - destruct (IH s' g cont x Hx) as [y ->]. done.
  - destruct (run r1 (w ++ s') g cont); [done|]. by eapply IH.
  - by eapply repeat_greedy_complete.
  - eapply IH. rewrite length_app, Nat.add_sub, take_app_length. done.
Qed.

End Engine.

(** An anchored match succeeds exactly on the texts that begin with a
    word of the pattern, and a successful match is such a word. *)
Lemma match_here_sound r s m :
  match_here r s = Some m →
  ∃ w, s = w ++ rest m ∧ den r w (groupdict m).
Proof.
  unfold match_here. intros H.
  apply run_sound in H as (w & g' & s' & -> & Hden & [= <-]).
  rewrite app_nil_r. by exists w.
Qed.

Lemma match_here_complete r w g s' :
  den r w g → is_Some (match_here r (w ++ s')).
Proof. intros Hden. unfold match_here. by eapply run_complete. Qed.

(** Every match that [finditer] reports is an anchored match at some
    position of the text. *)
Lemma scan_sound r m s skip :
  m ∈ scan r s skip → ∃ pre s1, s = pre ++ s1 ∧ match_here r s1 = Some m.
Proof.
  revert skip. induction s as [|c s IH]; intros skip; cbn [scan].
  - destruct skip; [|by intros ?%elem_of_nil].
    destruct (match_here r []) as [m'|] eqn:Hm; [|by intros ?%elem_of_nil].
    intros ->%list_elem_of_singleton. by exists [], [].
  - assert (Hrec : ∀ n, m ∈ scan r s n →
              ∃ pre s1, c :: s = pre ++ s1 ∧ match_here r s1 = Some m).
    { intros n (pre & s1 & -> & Hm)%IH. by exists (c :: pre), s1. }
    destruct skip; [|by apply Hrec].
    destruct (match_here r (c :: s)) as [m'|] eqn:Hm; [|by apply Hrec].
    intros [->|?]%elem_of_cons; [|by eapply Hrec]. by exists [], (c :: s).
Qed.

(** If a word of the pattern occurs anywhere in the text, [finditer]
    reports at least one match. *)
Lemma scan_finds r pre w g post :
  den r w g → w ≠ [] → scan r (pre ++ w ++ post) 0 ≠ [].
Proof.
  intros Hden Hw. induction pre as [|c pre IH]; cbn [app].
  - destruct (match_here_complete r w g post Hden) as [m Hm].
    destruct w as [|c w]; [done|]. cbn [app scan] in *. by rewrite Hm.
  - cbn [scan]. by destruct (match_here r (c :: pre ++ w ++ post)).
Qed.

End ReFacts.

(** ** The JSLike extractor *)

Lemma accepts_quote c : Re.accepts (Re.OneOf quotes) c = true ↔ quote c.
Proof.
  unfold quote. cbn. rewrite orb_false_r, orb_true_iff, !N.eqb_eq. done.
Qed.

Lemma accepts_no_quote c : Re.accepts (Re.NoneOf quotes) c = true ↔ ¬ quote c.
Proof.
  cbn [Re.accepts]. rewrite negb_true_iff, <-not_true_iff_false.
  by rewrite <-accepts_quote.
Qed.

Lemma accepts_dot_all w :
  Forall (λ c, Re.accepts Re.Dot c = true) w ↔ 10 ∉ w.
Proof.
  induction w as [|c w IH].
  - split; [intros _; apply not_elem_of_nil|constructor].
  - rewrite Forall_cons, not_elem_of_cons, IH. cbn [Re.accepts].
    rewrite negb_true_iff, N.eqb_neq. naive_solver.
Qed.

Lemma nonempty_length {A} (l : list A) : (1 ≤ length l)%nat ↔ l ≠ [].
Proof. destruct l; simpl; split; (done || lia). Qed.

Lemma accepts_no_quote_all w :
  Forall (λ c, Re.accepts (Re.NoneOf quotes) c = true) w
  ↔ Forall (λ c, ¬ quote c) w.
Proof. apply Forall_iff, accepts_no_quote. Qed.

Lemma den_seq_eq r1 r2 w1 w2 g1 g2 w g :
  Re.den r1 w1 g1 → Re.den r2 w2 g2 →
  w = w1 ++ w2 → g = g2 ++ g1 →
  Re.den (Re.Seq r1 r2) w g.
Proof. intros ?? -> ->. by constructor. Qed.

(** The words of [JS_IMPORT_RE] are the two forms, and a match captures
    the module string as its only group. *)
Lemma den_JS_IMPORT_RE w g :
  Re.den JS_IMPORT_RE w g ↔ ∃ whole, g = [("mod", whole)] ∧ js_form w whole.
Proof.
  split.
  - intros H. cbv [JS_IMPORT_RE Re.cat foldr] in H.
    repeat match goal with
    | H : Re.den (Re.Seq _ _) _ _ |- _ => inv H
    | H : Re.den (Re.Alt _ _) _ _ |- _ => inv H
    | H : Re.den Re.Eps _ _ |- _ => inv H
    | H : Re.den (Re.Lit _) _ _ |- _ => inv H
    | H : Re.den (Re.Set_ _) _ _ |- _ => inv H
    | H : Re.den (Re.Repeat _ _) _ _ |- _ => inv H
    | H : Re.den (Re.Group _ _) _ _ |- _ => inv H
    end;
    repeat match goal with
    | H : Re.accepts (Re.OneOf quotes) _ = true |- _ => apply accepts_quote in H
    | H : Forall (λ c, Re.accepts Re.Dot c = true) _ |- _ =>
        apply accepts_dot_all in H
    | H : Forall (λ c, Re.accepts (Re.NoneOf quotes) c = true) _ |- _ =>
        apply accepts_no_quote_all in H
    | H : (1 ≤ length _)%nat |- _ => apply nonempty_length in H
    end.
    + eexists. split; [reflexivity|].
      rewrite ?app_nil_r, <-?(assoc_L (++)).
      by apply import_from.
    + eexists. split; [reflexivity|].
      rewrite ?app_nil_r, <-?(assoc_L (++)).
      by apply require_call.
  - intros (whole & -> & Hform). cbv [JS_IMPORT_RE Re.cat foldr].
    assert (Htail : ∀ ws q1 q2,
              Forall whitespace ws → quote q1 → whole ≠ [] →
              Forall (λ c, ¬ quote c) whole → quote q2 →
              Re.den
                (Re.Seq (Re.Repeat 0 Re.Space)
                   (Re.Seq (Re.Set_ (Re.OneOf quotes))
                      (Re.Seq (Re.Group "mod" (Re.Repeat 1 (Re.NoneOf quotes)))
                         (Re.Seq (Re.Set_ (Re.OneOf quotes)) Re.Eps))))
                (ws ++ [q1] ++ whole ++ [q2]) [("mod", whole)]).
    { intros ws q1 q2 Hws Hq1 Hne Hwhole Hq2.
      eapply (den_seq_eq _ _ ws);
        [apply Re.den_repeat; [exact Hws|lia]| |reflexivity|].
      - eapply (den_seq_eq _ _ [q1]);
          [apply Re.den_set; by apply accepts_quote| |reflexivity|].
        + eapply (den_seq_eq _ _ whole);
            [apply Re.den_group, Re.den_repeat;
               [by apply accepts_no_quote_all|by apply nonempty_length]
            | |reflexivity|].
          * eapply (den_seq_eq _ _ [q2]);
              [apply Re.den_set; by apply accepts_quote
              |apply Re.den_eps|reflexivity|reflexivity].
          * reflexivity.
        + reflexivity.
      - reflexivity. }
    destruct Hform as [s1 bindings s2 s3 ws q1 whole q2
                         Hs1 Hb Hnl Hs2 Hs3 Hws Hq1 Hne Hwhole Hq2
                      |ws q1 whole q2 Hws Hq1 Hne Hwhole Hq2].
    + eapply (den_seq_eq _ _
                (py "import" ++ [s1] ++ bindings ++ [s2] ++ py "from" ++ [s3]));
        [apply Re.den_alt_l|by apply (Htail ws q1 q2)
        |by rewrite <-!(assoc_L (++))|reflexivity].
      eapply (den_seq_eq _ _ (py "import"));
        [apply Re.den_lit| |reflexivity|].
      * eapply (den_seq_eq _ _ [s1]);
          [apply Re.den_set; exact Hs1| |reflexivity|].
        -- eapply (den_seq_eq _ _ bindings);
             [apply Re.den_repeat;
                [by apply accepts_dot_all|by apply nonempty_length]
             | |reflexivity|].
           ++ eapply (den_seq_eq _ _ [s2]);
                [apply Re.den_set; exact Hs2| |reflexivity|].
              ** eapply (den_seq_eq _ _ (py "from"));
                   [apply Re.den_lit| |reflexivity|].
                 --- eapply (den_seq_eq _ _ [s3]);
                       [apply Re.den_set; exact Hs3|apply Re.den_eps
                       |reflexivity|reflexivity].
                 --- reflexivity.
              ** reflexivity.
           ++ reflexivity.
        -- reflexivity.
      * reflexivity.
    + eapply (den_seq_eq _ _ (py "require("));
        [apply Re.den_alt_r, Re.den_lit|by apply (Htail ws q1 q2)
        |reflexivity|reflexivity].
Qed.

Lemma elem_of_foldl_js_visit x wholes mods :
  x ∈ foldl js_visit mods wholes ↔
  x ∈ mods ∨ ∃ whole, whole ∈ wholes ∧ ¬ begins_with_dot whole
                      ∧ x = before 47 whole.
Proof.
  revert mods. induction wholes as [|w wholes IH]; intros mods; simpl.
  - split; [auto|]. intros [?|(w & Hw & _)]; [done|]. by apply elem_of_nil in Hw.
  - rewrite IH. unfold js_visit.
    rewrite before_startswith_dot by done.
    destruct (Str.startswith (py ".") w) eqn:Hdot; simpl.
    + apply startswith_dot in Hdot. split.
      * intros [?|(w' & Hw' & ?)]; [by left|]. right. exists w'.
        split; [by right|done].
      * intros [?|(w' & Hw' & Hnd & ?)]; [by left|].
        apply elem_of_cons in Hw' as [->|Hw']; [done|].
        right. by exists w'.
    + assert (¬ begins_with_dot w) as Hnd.
      { intros H%startswith_dot. congruence. }
      rewrite elem_of_union, elem_of_singleton. split.
      * intros [[?| ->]|(w' & Hw' & ?)]; [by left|right ..].
        -- exists w. split; [left|done].
        -- exists w'. split; [by right|done].
      * intros [?|(w' & Hw' & Hnd' & ->)]; [by left; left|].
        apply elem_of_cons in Hw' as [->|Hw']; [by left; right|].
        right. by exists w'.
Qed.

Lemma finditer_module_string text m :
  m ∈ Re.finditer JS_IMPORT_RE text → ∃ whole, module_string text m whole.
Proof.
  intros (pre & s1 & -> & Hm)%ReFacts.scan_sound.
  apply ReFacts.match_here_sound in Hm as (w & -> & Hden).
  apply den_JS_IMPORT_RE in Hden as (whole & Hg & Hform).
  exists whole. split.
  - unfold Re.group. by rewrite Hg.
  - by exists pre, w.
Qed.

Lemma finditer_module_strings text :
  ∃ wholes, Forall2 (module_string text) (Re.finditer JS_IMPORT_RE text) wholes.
Proof.
  assert (H : Forall (λ m, ∃ whole, module_string text m whole)
                (Re.finditer JS_IMPORT_RE text)).
  { apply Forall_forall. intros m. apply finditer_module_string. }
  induction H as [|m ms [whole Hm] _ [wholes IH]].
  - by exists [].
  - exists (whole :: wholes). by constructor.
Qed.

Lemma js_form_nonempty w whole : js_form w whole → w ≠ [].
Proof. by destruct 1. Qed.

(** Where one of the two forms occurs, the scan reports a match. *)
Lemma finditer_finds pre w post whole :
  js_form w whole → Re.finditer JS_IMPORT_RE (pre ++ w ++ post) ≠ [].
Proof.
  intros Hform. eapply ReFacts.scan_finds.
  - apply den_JS_IMPORT_RE. by eexists.
  - by eapply js_form_nonempty.
Qed.

Section JsExtractor.

Variable W : world.

Lemma js_loop text ms wholes mods :
  Forall2 (module_string text) ms wholes →
  for_each ms mods (λ mods m,
    whole ← lift (Re.group m "mod");
    name ← lift (item0 (Str.split 47 whole));
    if negb (Str.startswith (py ".") name)
    then ret (mods ∪ {[ name ]})
    else ret mods) = ret (foldl js_visit mods wholes).
Proof.
  intros H. revert mods.
  induction H as [|m whole ms wholes [Hm _] _ IH]; intros mods; [done|].
  cbn [for_each foldl]. rewrite Hm, bind_lift_ok, split_item0, bind_lift_ok.
  fold (js_visit mods whole).
  replace (if negb (Str.startswith (py ".") (before 47 whole))
           then ret (mods ∪ {[before 47 whole]}) else ret mods)
    with (ret (js_visit mods whole))
    by (unfold js_visit; by destruct (negb _)).
  by rewrite bind_ret_l, IH.
Qed.

Lemma extract_js_imports_read p text wholes :
  file_text W p = Ok text →
  Forall2 (module_string text) (Re.finditer JS_IMPORT_RE text) wholes →
  extract_js_imports W p =
    ([ReadText p; ReFinditer text], Ok (foldl js_visit ∅ wholes)).
Proof.
  intros Hread Hwholes. unfold extract_js_imports, read_text, finditer.
  rewrite Hread. cbn [mbind Ext_bind bind].
  by erewrite js_loop.
Qed.

(** A file that cannot be read: the exception leaves the extractor. *)
Lemma extract_js_imports_unreadable p e :
  file_text W p = Raise e →
  extract_js_imports W p = ([ReadText p], Raise e).
Proof.
  intros Hread. unfold extract_js_imports, read_text. by rewrite Hread.
Qed.

End JsExtractor.

(** ** C3 *)

Lemma module_strings_eq text ms wholes :
  Forall2 (module_string text) ms wholes → wholes = group_mod <$> ms.
Proof.
  induction 1 as [|m whole ms wholes [Hm _] _ IH]; [done|].
  cbn [fmap list_fmap]. unfold group_mod at 1. by rewrite Hm, IH.
Qed.

(** C3. For a JSLike file that is read, every match of the pattern is an
    occurrence of [import <bindings> from '<module>'] or of
    [require('<module>')], with single or double quotes; the extracted
    set holds the first path segment of each matched module string that
    does not begin with a dot, and nothing else.  [import x from
    './local'] gives the empty set and [import x from 'lodash/fp'] the
    set holding only [lodash]. *)
Theorem js_records_first_path_segments W p text :
  file_text W p = Ok text →
  ∃ wholes mods,
    extract_js_imports W p = ([ReadText p; ReFinditer text], Ok mods)
    ∧ Forall2 (module_string text) (Re.finditer JS_IMPORT_RE text) wholes
    ∧ (∀ pre w post whole,
         text = pre ++ w ++ post → js_form w whole → wholes ≠ [])
    ∧ (∀ x, x ∈ mods ↔
            ∃ whole, whole ∈ wholes ∧ ¬ begins_with_dot whole
                     ∧ x = before 47 whole)
    ∧ (text = local_import → mods = ∅)
    ∧ (text = lodash_import → mods = {[ py "lodash" ]}).
Proof.
  intros Hread. destruct (finditer_module_strings text) as [wholes Hwholes].
  assert (Hrun := extract_js_imports_read W p text wholes Hread Hwholes).
  exists wholes, (foldl js_visit ∅ wholes).
  split; [done|]. split; [done|]. split; [|split; [|split]].
  - intros pre w post whole -> Hform ->.
    apply Forall2_nil_inv_r in Hwholes. by eapply finditer_finds.
  - intros x. rewrite elem_of_foldl_js_visit. split.
    + intros [H|H]; [by apply not_elem_of_empty in H|done].
    + by right.
  - intros ->. rewrite (module_strings_eq _ _ _ Hwholes).
    vm_compute. reflexivity.
  - intros ->. rewrite (module_strings_eq _ _ _ Hwholes).
    vm_compute. reflexivity.
Qed.

Lemma js_records_first_path_segments_witness :
  file_text local_import_world b_js = Ok local_import
  ∧ ∃ wholes mods,
      extract_js_imports local_import_world b_js
      = ([ReadText b_js; ReFinditer local_import], Ok mods)
      ∧ Forall2 (module_string local_import)
          (Re.finditer JS_IMPORT_RE local_import) wholes
      ∧ (∀ pre w post whole,
           local_import = pre ++ w ++ post → js_form w whole → wholes ≠ [])
      ∧ (∀ x, x ∈ mods ↔
              ∃ whole, whole ∈ wholes ∧ ¬ begins_with_dot whole
                       ∧ x = before 47 whole)
      ∧ (local_import = local_import → mods = ∅)
      ∧ (local_import = lodash_import → mods = {[ py "lodash" ]}).
Proof.
  split; [reflexivity|].
  apply (js_records_first_path_segments local_import_world b_js local_import).
  reflexivity.
Defined.

(** The bindings are matched greedily within a line: of two imports on
    one line, only the module of the last is matched. *)
Example greedy_bindings :
  group_mod <$> Re.finditer JS_IMPORT_RE
                  (py "import a from 'x'; import b from 'y'")
  = [py "y"].
Proof. vm_compute. reflexivity. Qed.

(** ** C9 *)

(** C9. The scan is purely textual.  A [require('x')] that stands only
    inside a line comment, or only inside a string literal, is still
    recorded as module [x]. *)
Theorem js_scan_ignores_context :
  (is_line_comment commented_require
   ∧ extract_js_imports
       (single_file b_js (Ok commented_require) (Raise SyntaxError)) b_js
     = ([ReadText b_js; ReFinditer commented_require], Ok {[ py "x" ]}))
  ∧ (is_literal_body literal_body
     ∧ Re.finditer JS_IMPORT_RE (py "const hint = " ++ [34; 34] ++ py ";") = []
     ∧ extract_js_imports
         (single_file b_js (Ok literal_require) (Raise SyntaxError)) b_js
       = ([ReadText b_js; ReFinditer literal_require], Ok {[ py "x" ]})).
Proof.
  split; [split|split; [|split]].
  - exists (py " require('x')"). split; [reflexivity|].
    apply Forall_forall. unfold line_terminators. cbn [app].
    repeat (apply Forall_cons; split); try apply Forall_nil; compute_done.
  - vm_compute. reflexivity.
  - unfold is_literal_body.
    apply Forall_forall. unfold line_terminators. cbn [app].
    repeat (apply Forall_cons; split); try apply Forall_nil; compute_done.
  - vm_compute. reflexivity.
  - vm_compute. reflexivity.
Qed.

(** ** C8 *)

(** C8. A file whose extension is none of [.py], [.js], [.ts] yields the
    empty set: the dispatcher makes no library call at all (it neither
    reads the file nor runs a parser or the pattern) and does not
    raise. *)
Theorem unsupported_extension_is_noop W p :
  suffix p ∉ [py ".py"; py ".js"; py ".ts"] →
  extract_imports W p = ([], Ok ∅).
Proof.
  intros Hext. unfold extract_imports.
  rewrite !bool_decide_eq_false_2; [done|..].
  - intros H. apply Hext. by right.
  - intros H%list_elem_of_singleton. apply Hext. rewrite H. left.
Qed.

Lemma unsupported_extension_is_noop_witness :
  (suffix readme_md ∉ [py ".py"; py ".js"; py ".ts"])
  ∧ (extract_imports
       (single_file readme_md (Ok (py "# import os")) (Raise SyntaxError))
       readme_md = ([], Ok ∅)).
Proof.
  assert (H : suffix readme_md ∉ [py ".py"; py ".js"; py ".ts"])
    by compute_done.
  split; [exact H|].
  exact (unsupported_extension_is_noop _ readme_md H).
Defined.

(** ** C1 *)

(** C1 fails on the JSLike path.  [extract_js_imports] reads the file
    outside any [try]: when the read raises, the exception leaves the
    extractor and the dispatcher, and no set is returned.  (The
    PythonLike path catches it: [extract_python_imports_unreadable].) *)
Theorem js_read_failure_escapes :
  file_text undecodable_world b_js = Raise UnicodeDecodeError
  ∧ extract_js_imports undecodable_world b_js
    = ([ReadText b_js], Raise UnicodeDecodeError)
  ∧ extract_imports undecodable_world b_js
    = ([ReadText b_js], Raise UnicodeDecodeError).
Proof. repeat split; vm_compute; reflexivity. Qed.

(* ===================================================================== *)
(** * Part IX: properties of the graph builder *)
(* ===================================================================== *)

(** ** The order of strings *)

Lemma str_le_refl a : Str.le a a = true.
Proof.
  induction a as [|x a IH]; [done|]. cbn [Str.le].
  by rewrite N.eqb_refl, IH, orb_true_r.
Qed.

Lemma str_le_total a b : Str.le a b = true ∨ Str.le b a = true.
Proof.
  revert b. induction a as [|x a IH]; intros [|y b]; cbn [Str.le]; auto.
  destruct (N.ltb_spec x y), (N.ltb_spec y x), (N.eqb_spec x y),
    (N.eqb_spec y x); cbn; auto; try lia.
Qed.

Lemma str_le_antisym a b : Str.le a b = true → Str.le b a = true → a = b.
Proof.
  revert b. induction a as [|x a IH]; intros [|y b]; cbn [Str.le]; try done.
  destruct (N.ltb_spec x y), (N.ltb_spec y x), (N.eqb_spec x y),
    (N.eqb_spec y x); cbn; try done; try lia.
  intros. subst. f_equal. auto.
Qed.

Lemma str_le_trans a b c :
  Str.le a b = true → Str.le b c = true → Str.le a c = true.
Proof.
  revert b c. induction a as [|x a IH]; intros [|y b] [|z c];
    cbn [Str.le]; try done.
  destruct (N.ltb_spec x y), (N.ltb_spec y z), (N.ltb_spec x z),
    (N.eqb_spec x y), (N.eqb_spec y z), (N.eqb_spec x z);
    cbn; try done; try lia.
  apply IH.
Qed.

#[global] Instance str_le_Total : Total str_le.
Proof.
  intros a b. rewrite !Is_true_true. apply str_le_total.
Qed.

#[global] Instance str_le_Transitive : Transitive str_le.
Proof.
  intros a b c. rewrite !Is_true_true. apply str_le_trans.
Qed.

#[global] Instance str_le_AntiSymm : AntiSymm (=) str_le.
Proof.
  intros a b. rewrite !Is_true_true. apply str_le_antisym.
Qed.

(** [sorted] lists the elements of the set in ascending order... *)
Lemma sorted_Permutation s : sorted s ≡ₚ elements s.
Proof. apply merge_sort_Permutation. Qed.

Lemma sorted_StronglySorted s : StronglySorted str_le (sorted s).
Proof. apply (StronglySorted_merge_sort _). Qed.

Lemma elem_of_sorted s x : x ∈ sorted s ↔ x ∈ s.
Proof. by rewrite sorted_Permutation, elem_of_elements. Qed.

Lemma sorted_NoDup s : NoDup (sorted s).
Proof. rewrite sorted_Permutation. apply NoDup_elements. Qed.

(** ... whatever the order in which the set hands out its elements. *)
Lemma sorted_any_order s l :
  l ≡ₚ elements s → merge_sort str_le l = sorted s.
Proof.
  intros Hl. apply (StronglySorted_unique str_le).
  - apply (StronglySorted_merge_sort _).
  - apply sorted_StronglySorted.
  - by rewrite merge_sort_Permutation, sorted_Permutation.
Qed.

(** ** The statements of one call *)

Lemma for_cons {A} (x : A) xs body st :
  for_ (x :: xs) body st =
  match body x st with
  | (st', Ok _) => for_ xs body st'
  | (st', Raise e) => (st', Raise e)
  end.
Proof. reflexivity. Qed.

Lemma for_fmap {A B} (f : A → B) xs body st :
  for_ (f <$> xs) body st = for_ xs (λ x, body (f x)) st.
Proof.
  revert st. induction xs as [|x xs IH]; intros st; [done|].
  cbn [fmap list_fmap]. rewrite !for_cons. cbn beta.
  destruct (body (f x) st) as [st' [[]|e]]; [apply IH|done].
Qed.

(** [build_graph] sends its batch, one statement after the other, and
    stops at the first that fails. *)
Lemma build_graph_batch file_node imports st :
  build_graph file_node imports st = for_ (batch file_node imports) run st.
Proof.
  unfold build_graph, batch. cbn [app]. unfold mbind, Db_bind.
  rewrite for_cons.
  destruct (run (CreateConstraint File) st) as [st1 [[]|e]]; [|done].
  rewrite for_cons.
  destruct (run (CreateConstraint Module_) st1) as [st2 [[]|e]]; [|done].
  rewrite for_cons.
  destruct (run (MergeFile file_node) st2) as [st3 [[]|e]]; [|done].
  by rewrite for_fmap.
Qed.

(** What one [run] does to the store. *)
Lemma run_journal s st :
  journal (run s st).1
  = journal st ++ [{| sent := s;
                      failure := match (run s st).2 with
                                 | Ok _ => None
                                 | Raise e => Some e
                                 end |}].
Proof.
  unfold run. by destruct (outages st) as [|[] ?]; destruct (exec s (db st)).
Qed.

Lemma run_db s st :
  db (run s st).1 = db st ∨ exec s (db st) = Ok (db (run s st).1).
Proof.
  unfold run. destruct (outages st) as [|[] ?]; [|by left|];
    destruct (exec s (db st)); cbn; auto.
Qed.

Lemma run_raise s st e :
  (run s st).2 = Raise e → db (run s st).1 = db st.
Proof.
  unfold run. by destruct (outages st) as [|[] ?]; destruct (exec s (db st)).
Qed.

Lemma run_outage s st os :
  outages st = true :: os →
  run s st = ({| db := db st; outages := os;
                 journal := journal st
                            ++ [{| sent := s;
                                   failure := Some ServiceUnavailable |}] |},
              Raise ServiceUnavailable).
Proof. unfold run. by intros ->. Qed.

Lemma run_ok s st :
  (run s st).2 = Ok tt → exec s (db st) = Ok (db (run s st).1).
Proof.
  unfold run. by destruct (outages st) as [|[] ?]; destruct (exec s (db st)).
Qed.

(** The journal of a run of statements: the statements sent are a prefix
    of those asked for; every one before the last succeeded and is
    committed; and the result is the answer to the last one. *)
Lemma for_run_journal stmts st :
  ∃ entries,
    journal (for_ stmts run st).1 = journal st ++ entries
    ∧ match (for_ stmts run st).2 with
      | Ok _ =>
          sent <$> entries = stmts
          ∧ Forall (λ en, failure en = None) entries
          ∧ db (for_ stmts run st).1 = committed stmts (db st)
      | Raise e =>
          ∃ oks s rest,
            entries = oks ++ [{| sent := s; failure := Some e |}]
            ∧ Forall (λ en, failure en = None) oks
            ∧ stmts = (sent <$> oks) ++ s :: rest
            ∧ db (for_ stmts run st).1 = committed (sent <$> oks) (db st)
      end.
Proof.
  revert st. induction stmts as [|s stmts IH]; intros st.
  - exists []. by rewrite app_nil_r.
  - rewrite for_cons. pose proof (run_journal s st) as Hj.
    pose proof (run_ok s st) as Hok. pose proof (run_raise s st) as Hfail.
    destruct (run s st) as [st1 [[]|e]] eqn:Hrun; cbn [fst snd] in *.
    + destruct (IH st1) as (entries & Hent & Hres).
      assert (commit (db st) s = db st1) as Hcommit
        by (unfold commit; by rewrite Hok).
      exists ({| sent := s; failure := None |} :: entries). split.
      { by rewrite Hent, Hj, <-(assoc_L (++)). }
      destruct ((for_ stmts run st1).2) as [[]|e].
      * destruct Hres as (<- & Hoks & ->). split; [done|].
        split; [by constructor|]. unfold committed.
        cbn [foldl fmap list_fmap sent]. by rewrite Hcommit.
      * destruct Hres as (oks & s' & rest & -> & Hoks & -> & ->).
        exists ({| sent := s; failure := None |} :: oks), s', rest.
        split; [done|]. split; [by constructor|]. split; [done|].
        unfold committed. cbn [foldl fmap list_fmap sent]. by rewrite Hcommit.
    + exists [{| sent := s; failure := Some e |}]. split; [done|].
      exists [], s, stmts. repeat split; [done|]. by apply (Hfail e).
Qed.

(** A property of the graph that every successful statement preserves
    holds after any run of statements, failed or not. *)
Lemma for_run_preserves (P : graph → Prop) stmts st :
  (∀ s g g', P g → exec s g = Ok g' → P g') →
  P (db st) → P (db (for_ stmts run st).1).
Proof.
  intros Hexec. revert st. induction stmts as [|s stmts IH]; intros st HP.
  - done.
  - rewrite for_cons. pose proof (run_db s st) as Hdb.
    destruct (run s st) as [st1 [[]|e]] eqn:Hrun; cbn [fst snd] in *.
    + apply IH. destruct Hdb as [-> | Hdb]; [done|by eapply Hexec].
    + destruct Hdb as [-> | Hdb]; [done|by eapply Hexec].
Qed.

(** ** Merging nodes and edges *)

Lemma is_node_true l k n :
  is_node l k n = true ↔ node_label n = l ∧ node_key n = k.
Proof.
  unfold is_node. rewrite andb_true_iff, !bool_decide_eq_true. done.
Qed.

Lemma elem_of_matching l k g n :
  n ∈ matching l k g ↔ n ∈ nodes g ∧ node_label n = l ∧ node_key n = k.
Proof.
  unfold matching. rewrite list_elem_of_filter, Is_true_true, is_node_true.
  tauto.
Qed.

Lemma matching_nil l k g : matching l k g = [] ↔ k ∉ keys l g.
Proof.
  unfold keys. rewrite list_elem_of_fmap. split.
  - intros Hnil (n & -> & [Hl Hn]%list_elem_of_filter).
    assert (n ∈ matching l (node_key n) g) as Hin
      by by apply elem_of_matching.
    rewrite Hnil in Hin. by apply elem_of_nil in Hin.
  - intros Hk. apply elem_of_nil_inv. intros n Hn.
    apply elem_of_matching in Hn as (Hn & Hl & Hkey). apply Hk.
    exists n. split; [done|]. by apply list_elem_of_filter.
Qed.

(** [merge_node] when the node is there: nothing changes. *)
Lemma merge_node_found l k g :
  matching l k g ≠ [] → merge_node l k g = (g, node_id <$> matching l k g).
Proof. unfold merge_node. by destruct (matching l k g). Qed.

(** [merge_node] when the node is missing: one node is appended. *)
Lemma merge_node_missing l k g :
  matching l k g = [] →
  merge_node l k g =
    ({| nodes := nodes g ++ [fresh_node l k g]; edges := edges g;
        next_id := S (next_id g); constraints := constraints g |},
     [next_id g]).
Proof. unfold merge_node. by intros ->. Qed.

Lemma matching_snoc l k l' k' g es i cs :
  matching l k {| nodes := nodes g ++ [fresh_node l' k' g]; edges := es;
                  next_id := i; constraints := cs |}
  = matching l k g ++ (if is_node l k (fresh_node l' k' g)
                       then [fresh_node l' k' g] else []).
Proof.
  unfold matching. cbn [nodes]. rewrite filter_app. f_equal.
  rewrite filter_cons, filter_nil.
  by destruct (is_node l k (fresh_node l' k' g)).
Qed.

(** After [merge_node], the ids it binds are those of the matching
    nodes, and there is at least one. *)
Lemma merge_node_bound l k g :
  (merge_node l k g).2 = node_id <$> matching l k (merge_node l k g).1
  ∧ matching l k (merge_node l k g).1 ≠ [].
Proof.
  destruct (matching l k g) as [|n ns] eqn:Hm.
  - rewrite merge_node_missing by done. cbn [fst snd].
    rewrite matching_snoc, Hm.
    assert (is_node l k (fresh_node l k g) = true) as ->
      by by apply is_node_true.
    done.
  - rewrite merge_node_found by by rewrite Hm. cbn [fst snd].
    by rewrite Hm.
Qed.

(** [merge_node] leaves the matches of every other pattern alone. *)
Lemma merge_node_other l k l' k' g :
  (l', k') ≠ (l, k) →
  matching l' k' (merge_node l k g).1 = matching l' k' g.
Proof.
  intros Hne. destruct (matching l k g) as [|n ns] eqn:Hm.
  - rewrite merge_node_missing by done. cbn [fst].
    rewrite matching_snoc.
    destruct (is_node l' k' (fresh_node l k g)) eqn:H.
    + apply is_node_true in H as [<- <-]. done.
    + by rewrite app_nil_r.
  - by rewrite merge_node_found by by rewrite Hm.
Qed.

Lemma merge_node_edges l k g : edges (merge_node l k g).1 = edges g.
Proof. unfold merge_node. by destruct (matching l k g). Qed.

Lemma merge_node_constraints l k g :
  constraints (merge_node l k g).1 = constraints g.
Proof. unfold merge_node. by destruct (matching l k g). Qed.

Lemma merge_node_extends l k g : extends g (merge_node l k g).1.
Proof.
  unfold extends. rewrite merge_node_edges, merge_node_constraints.
  split; [|done]. unfold merge_node.
  destruct (matching l k g); [by apply prefix_app_r|done].
Qed.

Lemma keys_snoc l l' k' g es i cs :
  keys l {| nodes := nodes g ++ [fresh_node l' k' g]; edges := es;
            next_id := i; constraints := cs |}
  = keys l g ++ (if decide (l' = l) then [k'] else []).
Proof.
  unfold keys. cbn [nodes]. rewrite filter_app, fmap_app. f_equal.
  rewrite filter_cons, filter_nil. cbn [node_label fresh_node].
  by destruct (decide (l' = l)).
Qed.

(** [merge_node] keeps the keys of every label distinct. *)
Lemma merge_node_keys_NoDup l k l' g :
  NoDup (keys l' g) → NoDup (keys l' (merge_node l k g).1).
Proof.
  intros Hnd. destruct (matching l k g) as [|n ns] eqn:Hm.
  - rewrite merge_node_missing by done. cbn [fst].
    rewrite keys_snoc. destruct (decide (l = l')) as [<- | ].
    + apply NoDup_app. split; [done|]. split; [|apply NoDup_singleton].
      intros x Hx ->%list_elem_of_singleton. by apply matching_nil in Hm.
    + by rewrite app_nil_r.
  - by rewrite merge_node_found by by rewrite Hm.
Qed.

Lemma connects_true f m e :
  connects f m e = true ↔ endpoints e = (f, m).
Proof.
  unfold connects, endpoints.
  rewrite andb_true_iff, !bool_decide_eq_true. naive_solver.
Qed.

Lemma existsb_connects f m es :
  existsb (connects f m) es = true ↔ (f, m) ∈ endpoints <$> es.
Proof.
  rewrite existsb_exists, list_elem_of_fmap. split.
  - intros (e & He%list_elem_of_In & Hc%connects_true). by exists e.
  - intros (e & Hc & He). exists e. split; [by apply list_elem_of_In|].
    by apply connects_true.
Qed.

(** [merge_edge] when the edge is there: nothing changes. *)
Lemma merge_edge_found g fm :
  fm ∈ endpoints <$> edges g → merge_edge g fm = g.
Proof.
  destruct fm as [f m]. intros H%existsb_connects.
  unfold merge_edge. cbn [fst snd]. by rewrite H.
Qed.

Lemma merge_edge_nodes g fm : nodes (merge_edge g fm) = nodes g.
Proof. unfold merge_edge. by destruct (existsb _ _). Qed.

Lemma merge_edge_constraints g fm :
  constraints (merge_edge g fm) = constraints g.
Proof. unfold merge_edge. by destruct (existsb _ _). Qed.

Lemma merge_edge_edges g fm :
  edges g `prefix_of` edges (merge_edge g fm)
  ∧ fm ∈ endpoints <$> edges (merge_edge g fm)
  ∧ (∀ e, e ∈ edges (merge_edge g fm) → e ∈ edges g ∨ endpoints e = fm)
  ∧ (NoDup (endpoints <$> edges g) →
     NoDup (endpoints <$> edges (merge_edge g fm))).
Proof.
  destruct fm as [f m]. unfold merge_edge. cbn [fst snd].
  destruct (existsb (connects f m) (edges g)) eqn:H.
  - apply existsb_connects in H. repeat split; auto.
  - cbn [edges]. rewrite fmap_app. repeat split.
    + by apply prefix_app_r.
    + apply elem_of_app. right. left.
    + intros e [? | ->%list_elem_of_singleton]%elem_of_app; auto.
    + intros Hnd. apply NoDup_app. split; [done|].
      split; [|apply NoDup_singleton].
      intros x Hx Hx'%list_elem_of_singleton. cbn in Hx'. subst x.
      apply existsb_connects in Hx. cbn [edge_from edge_to] in Hx.
      congruence.
Qed.

Lemma foldl_merge_edge_nodes pairs g :
  nodes (foldl merge_edge g pairs) = nodes g.
Proof.
  revert g. induction pairs as [|fm pairs IH]; intros g; [done|].
  cbn [foldl]. by rewrite IH, merge_edge_nodes.
Qed.

Lemma foldl_merge_edge_constraints pairs g :
  constraints (foldl merge_edge g pairs) = constraints g.
Proof.
  revert g. induction pairs as [|fm pairs IH]; intros g; [done|].
  cbn [foldl]. by rewrite IH, merge_edge_constraints.
Qed.

Lemma foldl_merge_edge_edges pairs g :
  edges g `prefix_of` edges (foldl merge_edge g pairs)
  ∧ (∀ fm, fm ∈ pairs → fm ∈ endpoints <$> edges (foldl merge_edge g pairs))
  ∧ (∀ e, e ∈ edges (foldl merge_edge g pairs) →
          e ∈ edges g ∨ endpoints e ∈ pairs)
  ∧ (NoDup (endpoints <$> edges g) →
     NoDup (endpoints <$> edges (foldl merge_edge g pairs))).
Proof.
  revert g. induction pairs as [|fm pairs IH]; intros g; cbn [foldl].
  - repeat split; auto. by intros fm ?%elem_of_nil.
  - destruct (IH (merge_edge g fm)) as (Hpre & Hall & Hnew & Hnd).
    destruct (merge_edge_edges g fm) as (Hpre1 & Hin1 & Hnew1 & Hnd1).
    repeat split.
    + by etrans.
    + intros fm' [-> | ?]%elem_of_cons; [|by apply Hall].
      destruct Hpre as [es ->]. rewrite fmap_app. apply elem_of_app. by left.
    + intros e [He|He]%Hnew; [|right; by right].
      apply Hnew1 in He as [?|<-]; [by left|right; left].
    + auto.
Qed.

Lemma foldl_merge_edge_found pairs g :
  (∀ fm, fm ∈ pairs → fm ∈ endpoints <$> edges g) →
  foldl merge_edge g pairs = g.
Proof.
  induction pairs as [|fm pairs IH]; intros Hall; [done|].
  cbn [foldl]. rewrite merge_edge_found by (apply Hall; left).
  apply IH. intros fm' ?. apply Hall. by right.
Qed.

(** ** What one statement does *)

Lemma elem_of_import_pairs f m ms fs :
  (f, m) ∈ import_pairs ms fs ↔ m ∈ ms ∧ f ∈ fs.
Proof.
  unfold import_pairs. rewrite list_elem_of_bind. split.
  - intros (m' & (f' & [= -> ->]%list_elem_of_singleton & Hf)%list_elem_of_bind
            & Hm). done.
  - intros [Hm Hf]. exists m. split; [|done].
    apply list_elem_of_bind. exists f. split; [left|done].
Qed.

Lemma exec_merge_import mod_ path g :
  exec (MergeImport mod_ path) g =
  Ok (foldl merge_edge
        (merge_node File path (merge_node Module_ mod_ g).1).1
        (import_pairs
           (merge_node Module_ mod_ g).2
           (merge_node File path (merge_node Module_ mod_ g).1).2)).
Proof.
  unfold exec. destruct (merge_node Module_ mod_ g) as [g1 ms].
  cbn [fst snd]. by destruct (merge_node File path g1) as [g2 fs].
Qed.

Lemma matching_nodes l k g g' :
  nodes g' = nodes g → matching l k g' = matching l k g.
Proof. unfold matching. by intros ->. Qed.

Lemma keys_nodes l g g' : nodes g' = nodes g → keys l g' = keys l g.
Proof. unfold keys. by intros ->. Qed.

#[global] Instance extends_refl : Reflexive extends.
Proof. by intros g. Qed.

#[global] Instance extends_trans : Transitive extends.
Proof.
  intros g1 g2 g3 (? & ? & ?) (? & ? & ?). repeat split; by etrans.
Qed.

(** A statement only ever adds to the graph. *)
Lemma exec_extends s g g' : exec s g = Ok g' → extends g g'.
Proof.
  destruct s as [l|path|mod_ path].
  - unfold exec. destruct (bool_decide (l ∈ constraints g)); [by intros [= <-]|].
    destruct (bool_decide (NoDup (keys l g))); [|done]. intros [= <-].
    repeat split; cbn; [done..|by apply prefix_app_r].
  - intros [= <-]. apply merge_node_extends.
  - rewrite exec_merge_import. intros [= <-].
    etrans; [apply (merge_node_extends Module_ mod_)|].
    etrans; [apply (merge_node_extends File path)|].
    repeat split.
    + by rewrite foldl_merge_edge_nodes.
    + apply foldl_merge_edge_edges.
    + by rewrite foldl_merge_edge_constraints.
Qed.

(** Only the creation of a constraint can be refused by the graph. *)
Lemma exec_merge_total s g :
  (∀ l, s ≠ CreateConstraint l) → ∃ g', exec s g = Ok g'.
Proof.
  destruct s as [l|path|mod_ path]; intros Hs.
  - by destruct (Hs l).
  - by eexists.
  - rewrite exec_merge_import. by eexists.
Qed.

Lemma added_for_run stmts st entries :
  journal (for_ stmts run st).1 = journal st ++ entries →
  added (for_ stmts run) st = entries.
Proof. unfold added. intros ->. by rewrite drop_app_length. Qed.

(** ** C7 *)

Lemma run_outages s st : outages (run s st).1 = tail (outages st).
Proof.
  unfold run. by destruct (outages st) as [|[] ?]; destruct (exec s (db st)).
Qed.

(** A statement fails for one of two reasons: the store is out of reach,
    or it is in reach and cannot execute the statement on its graph. *)
Lemma run_cause s st :
  match (run s st).2 with
  | Ok _ => outages st !! 0%nat ≠ Some true
  | Raise e =>
      outages st !! 0%nat = Some true ∧ e = ServiceUnavailable
      ∨ outages st !! 0%nat ≠ Some true ∧ exec s (db st) = Raise e
  end.
Proof.
  unfold run. destruct (outages st) as [|[] ?]; cbn [lookup list_lookup].
  - destruct (exec s (db st)); cbn [snd]; [done|by right].
  - by left.
  - destruct (exec s (db st)); cbn [snd]; [done|by right].
Qed.

(** A run of statements that fails: the statements before the failing
    one succeeded and are committed, and the failing one was refused by
    the store, which was out of reach at that moment or could not
    execute it on the graph it had then. *)
Lemma for_run_failure stmts : ∀ st e,
  (for_ stmts run st).2 = Raise e →
  ∃ oks s rest,
    journal (for_ stmts run st).1
    = journal st ++ oks ++ [{| sent := s; failure := Some e |}]
    ∧ Forall (λ en, failure en = None) oks
    ∧ stmts = (sent <$> oks) ++ s :: rest
    ∧ (outages st !! length oks = Some true ∧ e = ServiceUnavailable
       ∨ outages st !! length oks ≠ Some true
         ∧ exec s (committed (sent <$> oks) (db st)) = Raise e).
Proof.
  induction stmts as [|s0 stmts IH]; intros st e; [done|].
  rewrite for_cons. pose proof (run_journal s0 st) as Hj.
  pose proof (run_ok s0 st) as Hok. pose proof (run_outages s0 st) as Hout.
  pose proof (run_cause s0 st) as Hcause.
  destruct (run s0 st) as [st1 [[]|e0]] eqn:Hrun; cbn [fst snd] in *.
  - intros Hres.
    destruct (IH st1 e Hres) as (oks & s & rest & Hent & Hoks & -> & Hc).
    exists ({| sent := s0; failure := None |} :: oks), s, rest.
    split; [by rewrite Hent, Hj, <-(assoc_L (++))|].
    split; [by constructor|]. split; [done|].
    cbn [length fmap list_fmap sent]. unfold committed in *. cbn [foldl].
    assert (commit (db st) s0 = db st1) as ->
      by (unfold commit; by rewrite Hok).
    by rewrite Hout, lookup_tail in Hc.
  - intros [= ->]. exists [], s0, stmts. by rewrite Hj.
Qed.

(** C7. The statements [build_graph] sends depend on its arguments only:
    they are a prefix of [batch file_node imports], all of it when the
    call succeeds, and in the batch the modules are merged in ascending
    lexicographic order of their names, each once.  The call sends the
    statements one after the other and goes on until the store refuses
    one: it returns normally only when the whole batch was sent and
    accepted, the edge writes being those of the modules in ascending
    order; and it raises only what the store answered to the last
    statement sent, the store being out of reach at that moment or
    unable to execute the statement.  So two calls with the same
    arguments send the same sequence, up to the point where one of them
    is stopped. *)
Theorem build_graph_sends_in_sorted_order file_node imports st :
  sent <$> added (build_graph file_node imports) st
    `prefix_of` batch file_node imports
  ∧ match (build_graph file_node imports st).2 with
    | Ok _ =>
        sent <$> added (build_graph file_node imports) st
        = batch file_node imports
    | Raise _ => True
    end
  ∧ drop 3 (batch file_node imports)
    = (λ mod_, MergeImport mod_ file_node) <$> sorted imports
  ∧ StronglySorted str_le (sorted imports)
  ∧ NoDup (sorted imports)
  ∧ sorted imports ≡ₚ elements imports
  ∧ order_independent imports
  ∧ match (build_graph file_node imports st).2 with
    | Ok _ =>
        Forall (λ en, failure en = None)
          (added (build_graph file_node imports) st)
        ∧ drop 3 (sent <$> added (build_graph file_node imports) st)
          = (λ mod_, MergeImport mod_ file_node) <$> sorted imports
    | Raise e =>
        ∃ oks s,
          added (build_graph file_node imports) st
          = oks ++ [{| sent := s; failure := Some e |}]
          ∧ Forall (λ en, failure en = None) oks
          ∧ (outages st !! length oks = Some true ∧ e = ServiceUnavailable
             ∨ outages st !! length oks ≠ Some true
               ∧ exec s (committed (sent <$> oks) (db st)) = Raise e)
    end
  ∧ (∀ st',
       sent <$> added (build_graph file_node imports) st
         `prefix_of` sent <$> added (build_graph file_node imports) st'
       ∨ sent <$> added (build_graph file_node imports) st'
           `prefix_of` sent <$> added (build_graph file_node imports) st)
  ∧ (∀ st',
       (build_graph file_node imports st).2 = Ok tt →
       (build_graph file_node imports st').2 = Ok tt →
       sent <$> added (build_graph file_node imports) st
       = sent <$> added (build_graph file_node imports) st').
Proof.
  assert (Hsame : ∀ st, added (build_graph file_node imports) st
                        = added (for_ (batch file_node imports) run) st).
  { intros st0. unfold added. by rewrite build_graph_batch. }
  assert (Hprefix : ∀ st,
            sent <$> added (for_ (batch file_node imports) run) st
              `prefix_of` batch file_node imports).
  { intros st0.
    destruct (for_run_journal (batch file_node imports) st0)
      as (entries & Hent & Hres).
    rewrite (added_for_run _ _ _ Hent).
    destruct (for_ (batch file_node imports) run st0).2 as [[]|e].
    + by destruct Hres as (-> & _).
    + destruct Hres as (oks & s & rest & -> & _ & -> & _).
      rewrite fmap_app. cbn [fmap list_fmap sent].
      apply prefix_app, prefix_cons, prefix_nil. }
  assert (Hall : ∀ st,
            (for_ (batch file_node imports) run st).2 = Ok tt →
            sent <$> added (for_ (batch file_node imports) run) st
            = batch file_node imports
            ∧ Forall (λ en, failure en = None)
                (added (for_ (batch file_node imports) run) st)).
  { intros st0 Hok.
    destruct (for_run_journal (batch file_node imports) st0)
      as (entries & Hent & Hres).
    rewrite (added_for_run _ _ _ Hent). rewrite Hok in Hres.
    by destruct Hres as (-> & ? & _). }
  rewrite !Hsame, !build_graph_batch.
  split; [apply Hprefix|].
  split; [|split; [|split; [|split; [|split; [|split; [|split; [|split]]]]]]].
  - destruct (for_ (batch file_node imports) run st).2 as [[]|e] eqn:Hres;
      [|done].
    by apply Hall.
  - done.
  - apply sorted_StronglySorted.
  - apply sorted_NoDup.
  - apply sorted_Permutation.
  - intros l. apply sorted_any_order.
  - destruct (for_ (batch file_node imports) run st).2 as [[]|e] eqn:Hres.
    + destruct (Hall st Hres) as [-> ?]. done.
    + destruct (for_run_failure _ _ _ Hres)
        as (oks & s & rest & Hent & Hoks & _ & Hcause).
      exists oks, s. by rewrite (added_for_run _ _ _ Hent).
  - intros st'. setoid_rewrite Hsame.
    apply (prefix_weak_total _ _ (batch file_node imports)); apply Hprefix.
  - intros st'. rewrite !Hsame, !build_graph_batch. intros H1 H2.
    destruct (Hall st H1) as [-> _]. by destruct (Hall st' H2) as [-> _].
Qed.

(** ** C6 *)

(** C6. [build_graph] returns normally only when every statement of the
    batch was sent and none failed.  When a statement fails, that
    failure is the result of the call and nothing is sent after it; the
    statements before it stay committed; and whatever the outcome, the
    graph as it was before the call is still there unchanged, so the
    data of the files processed earlier is intact.  An unreachable
    store fails the first statement. *)
Theorem build_graph_surfaces_failures file_node imports st :
  extends (db st) (db (build_graph file_node imports st).1)
  ∧ match (build_graph file_node imports st).2 with
    | Ok _ =>
        sent <$> added (build_graph file_node imports) st
        = batch file_node imports
        ∧ Forall (λ en, failure en = None)
            (added (build_graph file_node imports) st)
        ∧ db (build_graph file_node imports st).1
          = committed (batch file_node imports) (db st)
    | Raise e =>
        ∃ oks s,
          added (build_graph file_node imports) st
          = oks ++ [{| sent := s; failure := Some e |}]
          ∧ Forall (λ en, failure en = None) oks
          ∧ db (build_graph file_node imports st).1
            = committed (sent <$> oks) (db st)
    end
  ∧ (if unreachable st
     then (build_graph file_node imports st).2 = Raise ServiceUnavailable
          ∧ db (build_graph file_node imports st).1 = db st
     else True).
Proof.
  assert (Hsame : added (build_graph file_node imports) st
                  = added (for_ (batch file_node imports) run) st).
  { unfold added. by rewrite build_graph_batch. }
  rewrite Hsame, !build_graph_batch.
  destruct (for_run_journal (batch file_node imports) st)
    as (entries & Hent & Hres).
  rewrite (added_for_run _ _ _ Hent).
  split; [|split].
  - apply (for_run_preserves (extends (db st))); [|done].
    intros s g g' Hg Hexec. etrans; [done|]. by eapply exec_extends.
  - destruct (for_ (batch file_node imports) run st).2 as [[]|e]; [done|].
    destruct Hres as (oks & s & rest & -> & Hoks & _ & Hdb). by exists oks, s.
  - unfold unreachable. destruct (outages st) as [|[] os] eqn:Hout; [done| |done].
    unfold batch. cbn [app]. rewrite for_cons.
    by rewrite (run_outage _ _ os).
Qed.

(** ** C5 *)

Lemma tidy_empty : tidy empty.
Proof. repeat split; constructor. Qed.

Lemma exec_tidy s g g' : tidy g → exec s g = Ok g' → tidy g'.
Proof.
  intros (Hf & Hm & He). destruct s as [l|path|mod_ path].
  - unfold exec. destruct (bool_decide (l ∈ constraints g)); [by intros [= <-]|].
    destruct (bool_decide (NoDup (keys l g))); [|done]. by intros [= <-].
  - intros [= <-]. repeat split; try by apply merge_node_keys_NoDup.
    by rewrite merge_node_edges.
  - rewrite exec_merge_import. intros [= <-]. repeat split.
    + rewrite (keys_nodes _ _ _ (foldl_merge_edge_nodes _ _)).
      by do 2 apply merge_node_keys_NoDup.
    + rewrite (keys_nodes _ _ _ (foldl_merge_edge_nodes _ _)).
      by do 2 apply merge_node_keys_NoDup.
    + apply foldl_merge_edge_edges. by rewrite !merge_node_edges.
Qed.

(** With distinct keys, a pattern matches at most one node. *)
Lemma matching_unique l k g n1 n2 :
  NoDup (keys l g) → n1 ∈ matching l k g → n2 ∈ matching l k g → n1 = n2.
Proof.
  unfold keys. intros Hnd (H1 & Hl1 & Hk1)%elem_of_matching
                          (H2 & Hl2 & Hk2)%elem_of_matching.
  assert (Hin1 : n1 ∈ filter (λ n, node_label n = l) (nodes g))
    by by apply list_elem_of_filter.
  assert (Hin2 : n2 ∈ filter (λ n, node_label n = l) (nodes g))
    by by apply list_elem_of_filter.
  apply list_elem_of_lookup in Hin1 as [i Hi], Hin2 as [j Hj].
  assert (i = j) as ->.
  { eapply NoDup_lookup; [exact Hnd|..]; rewrite list_lookup_fmap.
    - by rewrite Hi.
    - rewrite Hj. cbn. by rewrite Hk2, <-Hk1. }
  congruence.
Qed.

Lemma joins_true g path name e :
  joins g path name e = true ↔
  ∃ nf nm, nf ∈ matching File path g ∧ nm ∈ matching Module_ name g
           ∧ endpoints e = (node_id nf, node_id nm).
Proof.
  unfold joins. rewrite existsb_exists. split.
  - intros (nf & Hnf%list_elem_of_In & (nm & Hnm%list_elem_of_In & H)%existsb_exists).
    apply bool_decide_eq_true in H. by exists nf, nm.
  - intros (nf & nm & Hnf & Hnm & H). exists nf.
    split; [by apply list_elem_of_In|]. apply existsb_exists. exists nm.
    split; [by apply list_elem_of_In|]. by apply bool_decide_eq_true.
Qed.

(** A list whose images under [f] are distinct and all the same has at
    most one element. *)
Lemma NoDup_constant_length {A B} (f : A → B) (l : list A) (c : B) :
  NoDup (f <$> l) → Forall (λ x, f x = c) l → (length l ≤ 1)%nat.
Proof.
  destruct l as [|a [|b l]]; cbn; [lia..|].
  intros Hnd Hall. apply NoDup_cons in Hnd as [Hnd _]. exfalso. apply Hnd.
  apply Forall_cons in Hall as [Ha Hall]. apply Forall_cons in Hall as [Hb _].
  rewrite Ha, <-Hb. left.
Qed.

Lemma tidy_invariants g : tidy g → invariants g.
Proof.
  intros (Hf & Hm & He). split; [done..|]. intros path name.
  unfold imports_edges.
  destruct (filter (λ e, joins g path name e) (edges g)) as [|e0 es] eqn:Hes;
    [cbn; lia|].
  assert (He0 : e0 ∈ filter (λ e, joins g path name e) (edges g))
    by (rewrite Hes; left).
  apply list_elem_of_filter in He0 as [He0 _].
  apply Is_true_true, joins_true in He0 as (nf & nm & Hnf & Hnm & Hends).
  rewrite <-Hes.
  apply (NoDup_constant_length endpoints _ (node_id nf, node_id nm)).
  - eapply sublist_NoDup; [exact He|apply fmap_sublist, sublist_filter].
  - apply Forall_forall. intros e [Hj _]%list_elem_of_filter.
    apply Is_true_true, joins_true in Hj as (nf' & nm' & Hnf' & Hnm' & ->).
    by rewrite (matching_unique _ _ _ _ _ Hf Hnf Hnf'),
               (matching_unique _ _ _ _ _ Hm Hnm Hnm').
Qed.

Lemma build_graph_tidy file_node imports st :
  tidy (db st) → tidy (db (build_graph file_node imports st).1).
Proof.
  intros H. rewrite build_graph_batch.
  apply (for_run_preserves tidy); [|done].
  intros s g g'. apply exec_tidy.
Qed.

Lemma after_tidy calls st : tidy (db st) → tidy (db (after calls st)).
Proof.
  unfold after. revert st. induction calls as [|[f i] calls IH]; intros st H.
  - done.
  - cbn [foldl]. apply IH. by apply build_graph_tidy.
Qed.

(** C5. After any sequence of calls of [build_graph] on a store that was
    empty at first, whatever the arguments, however often a call is
    repeated, and whichever statements failed: no two [File] nodes have
    the same path, no two [Module] nodes have the same name, and between
    a file and a module there is at most one [IMPORTS] edge. *)
Theorem graph_invariants calls script :
  invariants (db (after calls (new_store script))).
Proof. apply tidy_invariants, after_tidy, tidy_empty. Qed.

(** ** C4 *)

Lemma for_run_reliable stmts st :
  outages st = [] → db (for_ stmts run st).1 = exec_all stmts (db st).
Proof.
  revert st. induction stmts as [|s stmts IH]; intros st Hout; [done|].
  rewrite for_cons. cbn [exec_all]. unfold run. rewrite Hout.
  destruct (exec s (db st)) as [g'|e]; [|done]. by rewrite IH.
Qed.

Lemma exec_constraint_found l g :
  l ∈ constraints g → exec (CreateConstraint l) g = Ok g.
Proof. intros H. unfold exec. by rewrite bool_decide_eq_true_2. Qed.

Lemma exec_constraint_holds l g g' :
  exec (CreateConstraint l) g = Ok g' → l ∈ constraints g'.
Proof.
  unfold exec. destruct (bool_decide (l ∈ constraints g)) eqn:H.
  - intros [= <-]. by apply bool_decide_eq_true in H.
  - destruct (bool_decide (NoDup (keys l g))); [|done]. intros [= <-].
    cbn. apply elem_of_app. right. left.
Qed.

Lemma extends_constraints g g' l :
  extends g g' → l ∈ constraints g → l ∈ constraints g'.
Proof. intros (_ & _ & [cs ->]) H. apply elem_of_app. by left. Qed.

Lemma elem_of_ids l k g i :
  i ∈ node_id <$> matching l k g ↔ ∃ n, n ∈ matching l k g ∧ node_id n = i.
Proof. rewrite list_elem_of_fmap. naive_solver. Qed.

(** [MergeImport] when everything is there: nothing changes. *)
Lemma exec_merge_import_found mod_ path g :
  matching File path g ≠ [] → linked g path mod_ →
  exec (MergeImport mod_ path) g = Ok g.
Proof.
  intros Hf [Hm Hedges]. rewrite exec_merge_import.
  rewrite (merge_node_found Module_) by done. cbn [fst snd].
  rewrite (merge_node_found File) by done. cbn [fst snd].
  f_equal. apply foldl_merge_edge_found. intros [f m].
  intros [(nm & Hnm & <-)%elem_of_ids (nf & Hnf & <-)%elem_of_ids]
         %elem_of_import_pairs.
  by apply Hedges.
Qed.

(** After [MergeImport], the file is there and linked to the module. *)
Lemma exec_merge_import_links mod_ path g g' :
  exec (MergeImport mod_ path) g = Ok g' →
  matching File path g' ≠ [] ∧ linked g' path mod_.
Proof.
  rewrite exec_merge_import. intros [= <-].
  set (g1 := (merge_node Module_ mod_ g).1).
  set (g2 := (merge_node File path g1).1).
  destruct (merge_node_bound Module_ mod_ g) as [Hms Hm1].
  destruct (merge_node_bound File path g1) as [Hfs Hf2].
  fold g1 in Hms, Hm1. fold g2 in Hfs, Hf2.
  assert (Hm2 : matching Module_ mod_ g2 = matching Module_ mod_ g1)
    by by apply merge_node_other.
  rewrite Hms, Hfs, <-Hm2.
  set (pairs := import_pairs _ _).
  assert (Hnodes : ∀ l k, matching l k (foldl merge_edge g2 pairs)
                          = matching l k g2).
  { intros l k. apply matching_nodes, foldl_merge_edge_nodes. }
  unfold linked. rewrite !Hnodes. split; [done|]. split; [by rewrite Hm2|].
  intros nf nm Hnf Hnm. apply foldl_merge_edge_edges.
  apply elem_of_import_pairs. split; apply elem_of_ids; eauto.
Qed.

(** [MergeImport] keeps the links of the other modules of the file. *)
Lemma exec_merge_import_keeps mod_ path name g g' :
  matching File path g ≠ [] → linked g path name →
  exec (MergeImport mod_ path) g = Ok g' →
  linked g' path name.
Proof.
  intros Hf [Hm Hedges] Hexec.
  destruct (decide (name = mod_)) as [->|Hne].
  { by eapply exec_merge_import_links. }
  rewrite exec_merge_import in Hexec. injection Hexec as <-.
  set (g1 := (merge_node Module_ mod_ g).1).
  assert (Hf1 : matching File path g1 = matching File path g)
    by by apply merge_node_other.
  assert (Hg2 : (merge_node File path g1).1 = g1)
    by (rewrite merge_node_found; [done|by rewrite Hf1]).
  rewrite Hg2 in *.
  set (pairs := import_pairs _ _) in *.
  assert (Hnodes : ∀ l k, matching l k (foldl merge_edge g1 pairs)
                          = matching l k g1).
  { intros l k. apply matching_nodes, foldl_merge_edge_nodes. }
  assert (Hm1 : matching Module_ name g1 = matching Module_ name g).
  { apply merge_node_other. congruence. }
  unfold linked. rewrite !Hnodes, Hm1, Hf1. split; [done|].
  intros nf nm Hnf Hnm.
  destruct (foldl_merge_edge_edges pairs g1) as ([es ->] & _).
  rewrite fmap_app. apply elem_of_app. left.
  unfold g1. rewrite merge_node_edges. by apply Hedges.
Qed.

Lemma exec_merge_import_constraints mod_ path g g' :
  exec (MergeImport mod_ path) g = Ok g' → constraints g' = constraints g.
Proof.
  rewrite exec_merge_import. intros [= <-].
  by rewrite foldl_merge_edge_constraints, !merge_node_constraints.
Qed.

(** The loop over the modules links the file to each of them. *)
Lemma imports_loop_links path names : ∀ seen g,
  matching File path g ≠ [] →
  (∀ n, n ∈ seen → linked g path n) →
  matching File path
    (exec_all ((λ mod_, MergeImport mod_ path) <$> names) g) ≠ []
  ∧ (∀ n, n ∈ seen ++ names →
          linked (exec_all ((λ mod_, MergeImport mod_ path) <$> names) g)
            path n)
  ∧ constraints (exec_all ((λ mod_, MergeImport mod_ path) <$> names) g)
    = constraints g.
Proof.
  induction names as [|name names IH]; intros seen g Hf Hseen.
  - rewrite app_nil_r. done.
  - cbn [fmap list_fmap exec_all].
    destruct (exec (MergeImport name path) g) as [g1|e] eqn:Hexec;
      [|by rewrite exec_merge_import in Hexec].
    destruct (exec_merge_import_links _ _ _ _ Hexec) as [Hf1 Hl1].
    destruct (IH (seen ++ [name]) g1) as (Hf' & Hall & Hcs); [done| |].
    { intros n [Hn| ->%list_elem_of_singleton]%elem_of_app; [|done].
      apply (exec_merge_import_keeps name path n g g1); auto. }
    split; [done|]. split.
    + intros n Hn. apply Hall. by rewrite <-(assoc_L (++)).
    + rewrite Hcs. by eapply exec_merge_import_constraints.
Qed.

(** When the file is linked to all the modules, the loop changes
    nothing. *)
Lemma imports_loop_found path names g :
  matching File path g ≠ [] →
  (∀ n, n ∈ names → linked g path n) →
  exec_all ((λ mod_, MergeImport mod_ path) <$> names) g = g.
Proof.
  intros Hf. induction names as [|name names IH]; intros Hall; [done|].
  cbn [fmap list_fmap exec_all].
  rewrite exec_merge_import_found by (done || apply Hall; left).
  apply IH. intros n Hn. apply Hall. by right.
Qed.

Lemma exec_merge_file path g :
  exec (MergeFile path) g = Ok (merge_node File path g).1.
Proof. reflexivity. Qed.

Lemma exec_all_batch_outcome file_node imports g :
  outcome file_node imports (exec_all (batch file_node imports) g).
Proof.
  unfold batch. cbn [app exec_all].
  destruct (exec (CreateConstraint File) g) as [g1|e] eqn:H1;
    [|by eapply refused_first].
  assert (HF1 := exec_constraint_holds _ _ _ H1).
  destruct (exec (CreateConstraint Module_) g1) as [g2|e] eqn:H2;
    [|by eapply refused_second].
  assert (HM2 := exec_constraint_holds _ _ _ H2).
  assert (HF2 := extends_constraints _ _ File (exec_extends _ _ _ H2) HF1).
  rewrite exec_merge_file. set (g3 := (merge_node File file_node g2).1).
  destruct (merge_node_bound File file_node g2) as [_ Hf3]. fold g3 in Hf3.
  destruct (imports_loop_links file_node (sorted imports) [] g3)
    as (Hf & Hall & Hcs); [done|by intros n ?%elem_of_nil|].
  assert (Hcs3 : constraints g3 = constraints g2)
    by apply merge_node_constraints.
  apply merged; [by rewrite Hcs, Hcs3..|done|done].
Qed.

Lemma exec_all_batch_settled file_node imports g :
  outcome file_node imports g → exec_all (batch file_node imports) g = g.
Proof.
  unfold batch. cbn [app exec_all]. intros [e H1|e HF H2|HF HM Hf Hall].
  - by rewrite H1.
  - by rewrite (exec_constraint_found File g), H2.
  - rewrite (exec_constraint_found File g), (exec_constraint_found Module_ g)
      by done.
    rewrite exec_merge_file, (merge_node_found File file_node g) by done.
    cbn [fst]. by apply imports_loop_found.
Qed.

(** C4. On a store that stays in reach, calling [build_graph] a second
    time with the same file and the same set of modules leaves the graph
    exactly as the first call left it, whatever the graph was before:
    the same nodes, the same edges, the same constraints, and no id
    used up. *)
Theorem build_graph_idempotent file_node imports g :
  db (build_graph file_node imports
        (reliable (db (build_graph file_node imports (reliable g)).1))).1
  = db (build_graph file_node imports (reliable g)).1.
Proof.
  rewrite !build_graph_batch, !for_run_reliable by done.
  apply exec_all_batch_settled, exec_all_batch_outcome.
Qed.

(** ** The scenario of the specification *)

(** Both files scanned and merged into an empty store: the graph holds
    the two files, the modules [json] and [react-dom], one edge from
    each file to its module, and no edge for the relative import. *)
Example scenario_graph :
  let g := db (after [(path_str a_py, found (extract_imports scenario_world a_py));
                      (path_str b_js, found (extract_imports scenario_world b_js))]
                 (new_store [])) in
  keys File g = [py "a.py"; py "b.js"]
  ∧ keys Module_ g = [py "json"; py "react-dom"]
  ∧ imports_edges g (py "a.py") (py "json")
    = [{| edge_id := 2; edge_from := 0; edge_to := 1 |}]
  ∧ imports_edges g (py "b.js") (py "react-dom")
    = [{| edge_id := 5; edge_from := 3; edge_to := 4 |}]
  ∧ length (edges g) = 2%nat.
Proof. vm_compute. repeat split; reflexivity. Qed.

(* ===================================================================== *)
(** * Part X: further properties of the extractors *)
(* ===================================================================== *)

(** ** Substrings *)

Lemma startswith_prefix p s : Str.startswith p s = true ↔ ∃ post, s = p ++ post.
Proof.
  revert s. induction p as [|a p IH]; intros s; cbn [Str.startswith].
  - split; [by exists s|done].
  - destruct s as [|b s]; [split; [done|by intros [? ?]]|].
    rewrite andb_true_iff, N.eqb_eq, IH. split.
    + intros [-> [post ->]]. by exists post.
    + intros [post [= -> ->]]. split; [done|by exists post].
Qed.

Lemma contains_occurs needle text :
  contains needle text = true ↔ ∃ pre post, text = pre ++ needle ++ post.
Proof.
  induction text as [|c text IH]; cbn [contains].
  - rewrite orb_false_r, startswith_prefix. split.
    + intros [post H]. by exists [], post.
    + intros (pre & post & H). destruct pre as [|? ?]; [by exists post|done].
  - rewrite orb_true_iff, startswith_prefix, IH. split.
    + intros [[post H]|(pre & post & ->)].
      * by exists [], post.
      * by exists (c :: pre), post.
    + intros (pre & post & H). destruct pre as [|c' pre].
      * left. by exists post.
      * right. injection H as -> ->. by exists pre, post.
Qed.

(** ** The PythonLike extractor *)

(** X1. [extract_python_imports] never raises.  A file that cannot be
    read, and a text that cannot be parsed, both give the empty set; the
    parser is not called on a file that cannot be read. *)
Theorem python_failures_give_empty_set W p :
  match file_text W p with
  | Raise _ => extract_python_imports W p = ([ReadText p], Ok ∅)
  | Ok text =>
      match parse W text with
      | Raise _ =>
          extract_python_imports W p = ([ReadText p; AstParse text], Ok ∅)
      | Ok tree =>
          ∃ mods, extract_python_imports W p
                  = ([ReadText p; AstParse text], Ok mods)
      end
  end.
Proof.
  destruct (file_text W p) as [text|e] eqn:Hread.
  - destruct (parse W text) as [tree|e] eqn:Hparse.
    + eexists. by apply extract_python_imports_parsed.
    + by eapply extract_python_imports_unparsable.
  - by eapply extract_python_imports_unreadable.
Qed.

Lemma contributes_no_dot n x : contributes n x → 46 ∉ x.
Proof.
  destruct n as [names|[m|] names level|a|class children]; cbn; try done.
  - intros (a & _ & ->). apply before_no_sep.
  - intros [_ ->]. apply before_no_sep.
Qed.

(** X2. No module name recorded by [extract_python_imports] holds a
    dot. *)
Theorem python_names_have_no_dot W p x :
  x ∈ found (extract_python_imports W p) → 46 ∉ x.
Proof.
  unfold found. destruct (file_text W p) as [text|e] eqn:Hread.
  - destruct (parse W text) as [tree|e] eqn:Hparse.
    + rewrite (extract_python_imports_parsed W p text tree) by done.
      cbn [snd]. intros [H0|(n & _ & Hn)]%elem_of_foldl_visit.
      * by apply not_elem_of_empty in H0.
      * by eapply contributes_no_dot.
    + rewrite (extract_python_imports_unparsable W p text e) by done.
      cbn [snd]. by intros ?%not_elem_of_empty.
  - rewrite (extract_python_imports_unreadable W p e) by done.
    cbn [snd]. by intros ?%not_elem_of_empty.
Qed.

Lemma python_names_have_no_dot_witness :
  py "os" ∈ found (extract_python_imports os_path_world a_py)
  ∧ 46 ∉ py "os".
Proof.
  assert (H : py "os" ∈ found (extract_python_imports os_path_world a_py)).
  { vm_compute. reflexivity. }
  split; [exact H|].
  exact (python_names_have_no_dot os_path_world a_py (py "os") H).
Defined.

(** ** The pattern and the JSLike extractor *)

(** X3. An anchored match of [JS_IMPORT_RE] succeeds exactly on the
    texts that begin with one of the two forms. *)
Theorem pattern_matches_the_two_forms s :
  is_Some (Re.match_here JS_IMPORT_RE s)
  ↔ ∃ w post whole, s = w ++ post ∧ js_form w whole.
Proof.
  split.
  - intros [m (w & -> & Hden)%ReFacts.match_here_sound].
    apply den_JS_IMPORT_RE in Hden as (whole & _ & Hform).
    by exists w, (Re.rest m), whole.
  - intros (w & post & whole & -> & Hform).
    eapply ReFacts.match_here_complete, den_JS_IMPORT_RE. by eexists.
Qed.

Lemma finditer_head_occurs text m ms :
  Re.finditer JS_IMPORT_RE text = m :: ms →
  ∃ pre w whole, text = pre ++ w ++ Re.rest m ∧ js_form w whole.
Proof.
  intros Hms.
  destruct (finditer_module_string text m) as (whole & _ & pre & w & -> & Hf).
  { rewrite Hms. left. }
  by exists pre, w, whole.
Qed.

(** X4. The scan of a text reports no match exactly when neither form
    occurs anywhere in the text. *)
Theorem scan_is_empty_without_forms text :
  Re.finditer JS_IMPORT_RE text = []
  ↔ ¬ ∃ pre w post whole, text = pre ++ w ++ post ∧ js_form w whole.
Proof.
  split.
  - intros Hnil (pre & w & post & whole & -> & Hform).
    by eapply finditer_finds.
  - intros Hnone. destruct (Re.finditer JS_IMPORT_RE text) as [|m ms] eqn:Hms;
      [done|].
    destruct (finditer_head_occurs _ _ _ Hms) as (pre & w & whole & -> & Hf).
    destruct Hnone. by exists pre, w, (Re.rest m), whole.
Qed.

Lemma js_form_whole w whole :
  js_form w whole → whole ≠ [] ∧ Forall (λ c, ¬ quote c) whole.
Proof. by destruct 1. Qed.

Lemma elem_of_before sep s c : c ∈ before sep s → c ∈ s.
Proof.
  intros Hc. destruct (before_prefix sep s) as [tl Htl].
  rewrite Htl. apply elem_of_app. by left.
Qed.

Lemma js_mods_spec W p text x :
  file_text W p = Ok text →
  x ∈ found (extract_js_imports W p) →
  ∃ m whole, m ∈ Re.finditer JS_IMPORT_RE text ∧ module_string text m whole
             ∧ ¬ begins_with_dot whole ∧ x = before 47 whole.
Proof.
  intros Hread. destruct (finditer_module_strings text) as [wholes Hwholes].
  unfold found. rewrite (extract_js_imports_read W p text wholes) by done.
  cbn [snd]. intros [H0|(whole & Hin & Hnd & ->)]%elem_of_foldl_js_visit;
    [by apply not_elem_of_empty in H0|].
  apply list_elem_of_lookup in Hin as [i Hi].
  destruct (Forall2_lookup_r _ _ _ _ _ Hwholes Hi) as (m & Hm & Hms).
  exists m, whole. split; [by eapply list_elem_of_lookup_2|done].
Qed.

(** X5. A module name recorded by [extract_js_imports] holds no slash
    and no quote, and does not begin with a dot. *)
Theorem js_names_are_first_segments W p x :
  x ∈ found (extract_js_imports W p) →
  (47 ∉ x) ∧ (39 ∉ x) ∧ (34 ∉ x) ∧ ¬ begins_with_dot x.
Proof.
  destruct (file_text W p) as [text|e] eqn:Hread.
  2:{ unfold found. rewrite (extract_js_imports_unreadable W p e) by done.
      by intros ?%not_elem_of_empty. }
  intros (m & whole & _ & (_ & pre & w & _ & Hform) & Hnd & ->)
         %(js_mods_spec W p text); [|done].
  apply js_form_whole in Hform as [_ Hq].
  rewrite Forall_forall in Hq.
  split; [apply before_no_sep|]. split; [|split].
  - intros H%elem_of_before. apply (Hq _ H). by left.
  - intros H%elem_of_before. apply (Hq _ H). by right.
  - intros H%startswith_dot. rewrite before_startswith_dot in H by done.
    by apply Hnd, startswith_dot.
Qed.

Lemma js_names_are_first_segments_witness :
  py "lodash" ∈ found (extract_js_imports lodash_world b_js)
  ∧ (47 ∉ py "lodash") ∧ (39 ∉ py "lodash") ∧ (34 ∉ py "lodash")
  ∧ ¬ begins_with_dot (py "lodash").
Proof.
  assert (H : py "lodash" ∈ found (extract_js_imports lodash_world b_js)).
  { vm_compute. reflexivity. }
  split; [exact H|].
  exact (js_names_are_first_segments lodash_world b_js (py "lodash") H).
Defined.

Lemma contains_app needle pre w post :
  contains needle w = true → contains needle (pre ++ w ++ post) = true.
Proof.
  intros (a & b & ->)%contains_occurs. apply contains_occurs.
  exists (pre ++ a), (b ++ post). by rewrite <-!(assoc_L (++)).
Qed.

Lemma js_form_keyword w whole :
  js_form w whole →
  contains (py "from") w = true ∨ contains (py "require(") w = true.
Proof.
  intros [s1 bindings s2 s3 ws q1 whole' q2 _ _ _ _ _ _ _ _ _ _
         |ws q1 whole' q2 _ _ _ _ _].
  - left. apply contains_occurs.
    exists (py "import" ++ [s1] ++ bindings ++ [s2]),
           ([s3] ++ ws ++ [q1] ++ whole' ++ [q2]).
    by rewrite <-!(assoc_L (++)).
  - right. apply contains_occurs. by exists [], (ws ++ [q1] ++ whole' ++ [q2]).
Qed.

(** X6. A text in which neither [from] nor [require(] occurs yields the
    empty set: an import without bindings, such as [import 'polyfill'],
    is never recorded. *)
Theorem js_needs_from_or_require W p text :
  file_text W p = Ok text →
  contains (py "from") text = false →
  contains (py "require(") text = false →
  extract_js_imports W p = ([ReadText p; ReFinditer text], Ok ∅).
Proof.
  intros Hread Hfrom Hreq.
  assert (Hnil : Re.finditer JS_IMPORT_RE text = []).
  { destruct (Re.finditer JS_IMPORT_RE text) as [|m ms] eqn:Hms; [done|].
    destruct (finditer_head_occurs _ _ _ Hms) as (pre & w & whole & -> & Hf).
    destruct (js_form_keyword _ _ Hf) as [H|H];
      apply (contains_app _ pre _ (Re.rest m)) in H; congruence. }
  rewrite (extract_js_imports_read W p text []); [done..|].
  rewrite Hnil. constructor.
Qed.

Lemma js_needs_from_or_require_witness :
  file_text polyfill_world b_js = Ok polyfill_import
  ∧ contains (py "from") polyfill_import = false
  ∧ contains (py "require(") polyfill_import = false
  ∧ extract_js_imports polyfill_world b_js
    = ([ReadText b_js; ReFinditer polyfill_import], Ok ∅).
Proof.
  split; [reflexivity|]. split; [reflexivity|]. split; [reflexivity|].
  apply (js_needs_from_or_require polyfill_world b_js polyfill_import);
    reflexivity.
Defined.

(** ** A text with a single import *)

Lemma quote_count_app s t :
  quote_count (s ++ t) = (quote_count s + quote_count t)%nat.
Proof. unfold quote_count. by rewrite filter_app, length_app. Qed.

Lemma quote_count_cons q s :
  quote q → quote_count (q :: s) = S (quote_count s).
Proof. intros Hq. unfold quote_count. by rewrite filter_cons_True. Qed.

Lemma quote_count_none s : Forall (λ c, ¬ quote c) s → quote_count s = 0%nat.
Proof.
  unfold quote_count. induction 1 as [|c s Hc _ IH]; [done|].
  by rewrite filter_cons_False.
Qed.

Lemma quote_count_zero s : quote_count s = 0%nat → Forall (λ c, ¬ quote c) s.
Proof.
  unfold quote_count. induction s as [|c s IH]; [constructor|].
  destruct (decide (quote c)) as [Hq|Hq].
  - by rewrite filter_cons_True.
  - rewrite filter_cons_False by done. by constructor; auto.
Qed.

(** The text up to the first quote, and the text after it, are
    determined. *)
Lemma first_quote_unique a q r a' q' r' :
  Forall (λ c, ¬ quote c) a → Forall (λ c, ¬ quote c) a' →
  quote q → quote q' →
  a ++ q :: r = a' ++ q' :: r' → a = a' ∧ r = r'.
Proof.
  intros Ha. revert a'. induction Ha as [|c a Hc Ha IH]; intros a' Ha' Hq Hq'.
  - destruct Ha' as [|c' a' Hc' Ha']; cbn [app].
    + by intros [= _ ->].
    + intros [= -> _]. done.
  - destruct Ha' as [|c' a' Hc' Ha']; cbn [app].
    + intros [= -> _]. done.
    + intros [= -> H]. destruct (IH a' Ha' Hq Hq' H) as [-> ->]. done.
Qed.

Lemma js_form_quoted w whole :
  js_form w whole →
  ∃ a q1 q2, w = a ++ q1 :: whole ++ [q2] ∧ quote q1 ∧ quote q2
             ∧ Forall (λ c, ¬ quote c) whole.
Proof.
  intros [s1 bindings s2 s3 ws q1 whole' q2 _ _ _ _ _ _ Hq1 _ Hw Hq2
         |ws q1 whole' q2 _ Hq1 _ Hw Hq2].
  - exists (py "import" ++ [s1] ++ bindings ++ [s2] ++ py "from" ++ [s3] ++ ws),
           q1, q2.
    split; [|done]. by rewrite <-!(assoc_L (++)).
  - exists (py "require(" ++ ws), q1, q2.
    split; [|done]. by rewrite <-!(assoc_L (++)).
Qed.

(** In a text with two quotes in all, every occurrence of a form has the
    same module string. *)
Lemma two_quotes_one_whole text pre w post whole pre' w' post' whole' :
  quote_count text = 2%nat →
  text = pre ++ w ++ post → js_form w whole →
  text = pre' ++ w' ++ post' → js_form w' whole' →
  whole' = whole.
Proof.
  assert (Hsplit : ∀ pre w post whole,
    quote_count text = 2%nat → text = pre ++ w ++ post → js_form w whole →
    ∃ a q1 q2 b, text = a ++ q1 :: whole ++ q2 :: b
                 ∧ Forall (λ c, ¬ quote c) a ∧ quote q1
                 ∧ Forall (λ c, ¬ quote c) whole ∧ quote q2).
  { clear. intros pre w post whole H2 -> (a & q1 & q2 & -> & Hq1 & Hq2 & Hw)
                  %js_form_quoted.
    exists (pre ++ a), q1, q2, post. split.
    { rewrite <-!(assoc_L (++)). cbn [app]. by rewrite <-!(assoc_L (++)). }
    split; [|done].
    rewrite !quote_count_app, (quote_count_cons q1), !quote_count_app,
      (quote_count_cons q2), (quote_count_none whole) in H2 by done.
    apply Forall_app. split; apply quote_count_zero; lia. }
  intros H2 Ht Hf Ht' Hf'.
  destruct (Hsplit _ _ _ _ H2 Ht Hf) as (a & q1 & q2 & b & E & Ha & Hq1 & Hw & Hq2).
  destruct (Hsplit _ _ _ _ H2 Ht' Hf')
    as (a' & q1' & q2' & b' & E' & Ha' & Hq1' & Hw' & Hq2').
  rewrite E in E'.
  destruct (first_quote_unique _ _ _ _ _ _ Ha Ha' Hq1 Hq1' E') as [_ E2].
  by destruct (first_quote_unique _ _ _ _ _ _ Hw Hw' Hq2 Hq2' E2) as [-> _].
Qed.

(** X7. A text that holds one import of either form, and no quote
    besides the two of that import, yields the first path segment of its
    module string and nothing else, or nothing when the module string
    begins with a dot. *)
Theorem js_single_import W p text pre w post whole :
  file_text W p = Ok text →
  text = pre ++ w ++ post → js_form w whole →
  quote_count text = 2%nat →
  extract_js_imports W p
  = ([ReadText p; ReFinditer text], Ok (js_visit ∅ whole)).
Proof.
  intros Hread Htext Hform H2.
  destruct (finditer_module_strings text) as [wholes Hwholes].
  rewrite (extract_js_imports_read W p text wholes) by done.
  do 2 f_equal. apply set_eq. intros x.
  change (js_visit ∅ whole) with (foldl js_visit ∅ [whole]).
  rewrite !elem_of_foldl_js_visit.
  assert (Hall : ∀ whole', whole' ∈ wholes → whole' = whole).
  { intros whole' [i Hi]%list_elem_of_lookup.
    destruct (Forall2_lookup_r _ _ _ _ _ Hwholes Hi)
      as (m & _ & _ & pre' & w' & Ht' & Hf').
    exact (two_quotes_one_whole text pre w post whole pre' w' (Re.rest m)
             whole' H2 Htext Hform Ht' Hf'). }
  assert (Hsome : whole ∈ wholes).
  { destruct wholes as [|whole' wholes'].
    - apply Forall2_nil_inv_r in Hwholes. subst text.
      destruct (finditer_finds pre w post whole Hform Hwholes).
    - rewrite <-(Hall whole') by left. left. }
  split; (intros [?|(whole' & Hin & Hnd & ->)]; [by left|right]).
  - pose proof (Hall whole' Hin) as ->. exists whole. split; [left|done].
  - apply list_elem_of_singleton in Hin as ->. by exists whole.
Qed.

Lemma lodash_import_form : js_form lodash_import (py "lodash/fp").
Proof.
  apply (import_from 32 (py "x") 32 32 [] 39 (py "lodash/fp") 39);
    try done; try (by left);
    repeat (apply Forall_cons; split); try apply Forall_nil;
    compute_done.
Qed.

Lemma js_single_import_witness :
  file_text lodash_world b_js = Ok lodash_import
  ∧ lodash_import = [] ++ lodash_import ++ []
  ∧ js_form lodash_import (py "lodash/fp")
  ∧ quote_count lodash_import = 2%nat
  ∧ extract_js_imports lodash_world b_js
    = ([ReadText b_js; ReFinditer lodash_import],
       Ok (js_visit ∅ (py "lodash/fp"))).
Proof.
  split; [reflexivity|]. split; [reflexivity|].
  split; [exact lodash_import_form|]. split; [reflexivity|].
  apply (js_single_import lodash_world b_js lodash_import [] lodash_import []
           (py "lodash/fp")).
  - reflexivity.
  - reflexivity.
  - exact lodash_import_form.
  - reflexivity.
Defined.

(** ** The dispatcher *)

Lemma extract_js_imports_result W p :
  match file_text W p with
  | Ok text => ∃ mods, extract_js_imports W p
                       = ([ReadText p; ReFinditer text], Ok mods)
  | Raise e => extract_js_imports W p = ([ReadText p], Raise e)
  end.
Proof.
  destruct (file_text W p) as [text|e] eqn:Hread.
  - destruct (finditer_module_strings text) as [wholes Hwholes].
    eexists. by apply (extract_js_imports_read W p text wholes).
  - by apply extract_js_imports_unreadable.
Qed.

(** X8. [extract_imports] raises in one case only: the file is JSLike
    and cannot be read; the exception is then that of the read. *)
Theorem extract_imports_raises_iff W p e :
  (extract_imports W p).2 = Raise e
  ↔ suffix p ∈ [py ".js"; py ".ts"] ∧ file_text W p = Raise e.
Proof.
  unfold extract_imports.
  destruct (decide (suffix p ∈ [py ".py"])) as [Hpy|Hpy].
  - rewrite bool_decide_eq_true_2 by done.
    destruct (extract_python_imports_total W p) as (log & mods & ->).
    apply list_elem_of_singleton in Hpy. rewrite Hpy.
    split; [done|]. intros [Hjs _]. exfalso. revert Hjs. compute_done.
  - rewrite bool_decide_eq_false_2 by done.
    destruct (decide (suffix p ∈ [py ".js"; py ".ts"])) as [Hjs|Hjs].
    + rewrite bool_decide_eq_true_2 by done.
      pose proof (extract_js_imports_result W p) as H.
      destruct (file_text W p) as [text|e'].
      * destruct H as [mods ->]. split; [done|]. by intros [_ ?].
      * rewrite H. cbn [snd]. split; [by intros [= ->]|]. by intros [_ [= ->]].
    + rewrite bool_decide_eq_false_2 by done. split; [done|]. by intros [? _].
Qed.

(** X9. An extraction touches its own file only: it reads no other
    path, and what it hands to the parser or to the pattern is the text
    of that file; the parser is used for PythonLike files only and the
    pattern for JSLike files only. *)
Theorem extract_imports_calls W p :
  Forall (call_for W p) (extract_imports W p).1.
Proof.
  unfold extract_imports.
  destruct (decide (suffix p ∈ [py ".py"])) as [Hpy|Hpy].
  - rewrite bool_decide_eq_true_2 by done.
    apply list_elem_of_singleton in Hpy.
    destruct (file_text W p) as [text|e] eqn:Hread.
    + destruct (parse W text) as [tree|e] eqn:Hparse.
      * rewrite (extract_python_imports_parsed W p text tree) by done.
        by repeat (apply Forall_cons; split; [done|]).
      * rewrite (extract_python_imports_unparsable W p text e) by done.
        by repeat (apply Forall_cons; split; [done|]).
    + rewrite (extract_python_imports_unreadable W p e) by done.
      by repeat (apply Forall_cons; split; [done|]).
  - rewrite bool_decide_eq_false_2 by done.
    destruct (decide (suffix p ∈ [py ".js"; py ".ts"])) as [Hjs|Hjs].
    + rewrite bool_decide_eq_true_2 by done.
      pose proof (extract_js_imports_result W p) as H.
      destruct (file_text W p) as [text|e] eqn:Hread.
      * destruct H as [mods ->]. by repeat (apply Forall_cons; split; [done|]).
      * rewrite H. by repeat (apply Forall_cons; split; [done|]).
    + rewrite bool_decide_eq_false_2 by done. by apply Forall_nil.
Qed.

(* ===================================================================== *)
(** * Part XI: the content of the graph *)
(* ===================================================================== *)

(** ** Views *)

Lemma view_eq v v' :
  files v = files v' → modules v = modules v' → imports v = imports v' →
  v = v'.
Proof. destruct v, v'; cbn. by intros -> -> ->. Qed.

Lemma elem_of_keys l g k :
  k ∈ keys l g ↔ ∃ n, n ∈ nodes g ∧ node_label n = l ∧ node_key n = k.
Proof.
  unfold keys. rewrite list_elem_of_fmap. split.
  - intros (n & -> & [Hl Hn]%list_elem_of_filter). by exists n.
  - intros (n & Hn & Hl & <-). exists n. split; [done|].
    by apply list_elem_of_filter.
Qed.

Lemma matching_keys l k g : matching l k g ≠ [] ↔ k ∈ keys l g.
Proof.
  rewrite matching_nil. destruct (decide (k ∈ keys l g)); naive_solver.
Qed.

Lemma elem_of_imports_of g p n :
  (p, n) ∈ imports_of g ↔
  ∃ e nf nm, e ∈ edges g ∧ nf ∈ matching File p g ∧ nm ∈ matching Module_ n g
             ∧ endpoints e = (node_id nf, node_id nm).
Proof.
  unfold imports_of. rewrite elem_of_list_to_set, list_elem_of_bind. split.
  - intros (e & Hin & He).
    apply list_elem_of_bind in Hin as (nf & Hin & Hnf).
    apply list_elem_of_bind in Hin as (nm & Hin & Hnm).
    apply list_elem_of_singleton in Hin as [= -> ->].
    apply list_elem_of_filter in Hnf as [[Hlf Hif] Hnf].
    apply list_elem_of_filter in Hnm as [[Hlm Him] Hnm].
    exists e, nf, nm. split; [done|].
    split; [by apply elem_of_matching|]. split; [by apply elem_of_matching|].
    unfold endpoints. by rewrite Hif, Him.
  - intros (e & nf & nm & He & (Hnf & Hlf & <-)%elem_of_matching
            & (Hnm & Hlm & <-)%elem_of_matching & [= Hf Hm]).
    exists e. split; [|done].
    apply list_elem_of_bind. exists nf. split; [|by apply list_elem_of_filter].
    apply list_elem_of_bind. exists nm. split; [left|].
    by apply list_elem_of_filter.
Qed.

(** A file imports a module in the view exactly when an edge joins
    them. *)
Lemma imports_of_edges g p n :
  (p, n) ∈ imports_of g ↔ imports_edges g p n ≠ [].
Proof.
  rewrite elem_of_imports_of. unfold imports_edges. split.
  - intros (e & nf & nm & He & Hnf & Hnm & Hends) Hnil.
    assert (Hin : e ∈ filter (λ e, joins g p n e) (edges g)).
    { apply list_elem_of_filter. split; [|done].
      apply Is_true_true, joins_true. by exists nf, nm. }
    rewrite Hnil in Hin. by apply elem_of_nil in Hin.
  - intros Hne.
    destruct (filter (λ e, joins g p n e) (edges g)) as [|e es] eqn:Hes;
      [done|].
    assert (Hin : e ∈ filter (λ e, joins g p n e) (edges g))
      by (rewrite Hes; left).
    apply list_elem_of_filter in Hin as [Hj He].
    apply Is_true_true, joins_true in Hj as (nf & nm & Hnf & Hnm & Hends).
    by exists e, nf, nm.
Qed.

(** ** Well-formed graphs *)

Lemma well_formed_empty : well_formed empty.
Proof.
  split; cbn.
  - constructor.
  - by intros n ?%elem_of_nil.
  - by intros e ?%elem_of_nil.
Qed.

Lemma node_id_inj g n1 n2 :
  NoDup (node_id <$> nodes g) → n1 ∈ nodes g → n2 ∈ nodes g →
  node_id n1 = node_id n2 → n1 = n2.
Proof.
  intros Hnd [i Hi]%list_elem_of_lookup [j Hj]%list_elem_of_lookup Heq.
  assert (i = j) as ->.
  { eapply NoDup_lookup; [exact Hnd|..]; rewrite list_lookup_fmap.
    - by rewrite Hi.
    - rewrite Hj. cbn. by rewrite Heq. }
  congruence.
Qed.

Lemma merge_node_nodes l k g n :
  n ∈ nodes (merge_node l k g).1 ↔
  n ∈ nodes g ∨ (matching l k g = [] ∧ n = fresh_node l k g).
Proof.
  destruct (matching l k g) as [|n0 ns] eqn:Hm.
  - rewrite merge_node_missing by done. cbn [fst nodes].
    rewrite elem_of_app, list_elem_of_singleton. naive_solver.
  - rewrite merge_node_found by by rewrite Hm. cbn [fst]. naive_solver.
Qed.

Lemma merge_node_next_id l k g :
  (next_id g ≤ next_id (merge_node l k g).1)%nat.
Proof.
  unfold merge_node. destruct (matching l k g); cbn; lia.
Qed.

Lemma merge_node_well_formed l k g :
  well_formed g → well_formed (merge_node l k g).1.
Proof.
  intros [Hnd Hn He]. destruct (matching l k g) as [|n0 ns] eqn:Hm.
  - rewrite merge_node_missing by done. cbn [fst].
    split; cbn [nodes edges next_id].
    + rewrite fmap_app. apply NoDup_app. split; [done|].
      split; [|apply NoDup_singleton].
      intros i (n & -> & Hin)%list_elem_of_fmap Hi.
      apply list_elem_of_singleton in Hi. cbn in Hi.
      specialize (Hn n Hin). lia.
    + intros n [Hin | ->%list_elem_of_singleton]%elem_of_app.
      * specialize (Hn n Hin). lia.
      * cbn. lia.
    + intros e Hin. specialize (He e Hin). lia.
  - by rewrite merge_node_found by by rewrite Hm.
Qed.

(** A new node has no edge yet. *)
Lemma merge_node_imports l k g :
  well_formed g → imports_of (merge_node l k g).1 = imports_of g.
Proof.
  intros [Hnd Hn He]. apply set_eq. intros [p n].
  rewrite !elem_of_imports_of, merge_node_edges.
  assert (Hold : ∀ l' k' e nd,
    e ∈ edges g → nd ∈ matching l' k' (merge_node l k g).1 →
    node_id nd = edge_from e ∨ node_id nd = edge_to e →
    nd ∈ matching l' k' g).
  { intros l' k' e nd Hin (Hnd' & Hl & Hk)%elem_of_matching Hid.
    apply elem_of_matching. split; [|done].
    apply merge_node_nodes in Hnd' as [?|[_ ->]]; [done|].
    specialize (He e Hin). cbn in Hid. lia. }
  assert (Hnew : ∀ l' k' nd,
    nd ∈ matching l' k' g → nd ∈ matching l' k' (merge_node l k g).1).
  { intros l' k' nd (Hnd' & Hl & Hk)%elem_of_matching.
    apply elem_of_matching. split; [|done]. apply merge_node_nodes. by left. }
  split.
  - intros (e & nf & nm & Hin & Hnf & Hnm & [= Hf Hm]).
    exists e, nf, nm. split; [done|].
    split; [apply (Hold _ _ e); auto|].
    split; [apply (Hold _ _ e); auto|]. unfold endpoints. by rewrite Hf, Hm.
  - intros (e & nf & nm & Hin & Hnf & Hnm & Hends).
    exists e, nf, nm. auto.
Qed.

Lemma merge_node_key_set l k l' g :
  list_to_set (keys l' (merge_node l k g).1)
  =@{gset str} list_to_set (keys l' g) ∪ (if decide (l = l') then {[ k ]} else ∅).
Proof.
  destruct (matching l k g) as [|n0 ns] eqn:Hm.
  - rewrite merge_node_missing by done. cbn [fst].
    rewrite keys_snoc, list_to_set_app_L.
    destruct (decide (l = l')); cbn; set_solver.
  - rewrite merge_node_found by by rewrite Hm. cbn [fst].
    destruct (decide (l = l')) as [<-|]; [|set_solver].
    assert (k ∈ keys l g) by (apply matching_keys; by rewrite Hm).
    set_solver.
Qed.

Lemma merge_edge_well_formed g fm :
  well_formed g →
  (fm.1 < next_id g)%nat → (fm.2 < next_id g)%nat →
  well_formed (merge_edge g fm)
  ∧ (next_id g ≤ next_id (merge_edge g fm))%nat.
Proof.
  intros [Hnd Hn He] H1 H2. unfold merge_edge.
  destruct (existsb _ _); [by split|]. split; [|cbn; lia].
  split; cbn [nodes edges next_id].
  - done.
  - intros n Hin. specialize (Hn n Hin). lia.
  - intros e [Hin | ->%list_elem_of_singleton]%elem_of_app.
    + specialize (He e Hin). lia.
    + cbn. lia.
Qed.

Lemma foldl_merge_edge_well_formed pairs g :
  well_formed g →
  (∀ fm, fm ∈ pairs → (fm.1 < next_id g)%nat ∧ (fm.2 < next_id g)%nat) →
  well_formed (foldl merge_edge g pairs).
Proof.
  revert g. induction pairs as [|fm pairs IH]; intros g Hwf Hall; [done|].
  cbn [foldl].
  destruct (Hall fm) as [H1 H2]; [left|].
  destruct (merge_edge_well_formed g fm Hwf H1 H2) as [Hwf' Hle].
  apply IH; [done|]. intros fm' Hin.
  destruct (Hall fm') as [? ?]; [by right|]. lia.
Qed.

(** ** What a statement means *)

Lemma exec_merge_import_view mod_ path g g' :
  well_formed g → exec (MergeImport mod_ path) g = Ok g' →
  well_formed g' ∧ view_of g' = denote (view_of g) (MergeImport mod_ path).
Proof.
  intros Hwf. rewrite exec_merge_import. intros [= <-].
  set (g1 := (merge_node Module_ mod_ g).1).
  set (g2 := (merge_node File path g1).1).
  assert (Hwf1 : well_formed g1) by by apply merge_node_well_formed.
  assert (Hwf2 : well_formed g2) by by apply merge_node_well_formed.
  destruct (merge_node_bound Module_ mod_ g) as [Hms Hm1].
  destruct (merge_node_bound File path g1) as [Hfs Hf2].
  fold g1 in Hms, Hm1. fold g2 in Hfs, Hf2.
  assert (Hm2 : matching Module_ mod_ g2 = matching Module_ mod_ g1)
    by by apply merge_node_other.
  rewrite Hms, Hfs, <-Hm2. rewrite <-Hm2 in Hm1.
  set (pairs := import_pairs _ _).
  assert (Hpairs : ∀ f m, (f, m) ∈ pairs ↔
            ∃ nf nm, nf ∈ matching File path g2 ∧ nm ∈ matching Module_ mod_ g2
                     ∧ f = node_id nf ∧ m = node_id nm).
  { intros f m. unfold pairs. rewrite elem_of_import_pairs, !elem_of_ids.
    naive_solver. }
  assert (Hnodes : ∀ l k, matching l k (foldl merge_edge g2 pairs)
                          = matching l k g2).
  { intros l k. apply matching_nodes, foldl_merge_edge_nodes. }
  destruct (foldl_merge_edge_edges pairs g2) as (Hpre & Hall & Hnew & _).
  split.
  - apply foldl_merge_edge_well_formed; [done|]. intros [f m].
    intros (nf & nm & (Hnf & _)%elem_of_matching & (Hnm & _)%elem_of_matching
            & -> & ->)%Hpairs.
    cbn [fst snd]. destruct Hwf2 as [_ Hn _]. auto.
  - apply view_eq; cbn [view_of denote files modules imports].
    + rewrite (keys_nodes _ _ _ (foldl_merge_edge_nodes _ _)).
      unfold g2, g1. rewrite !merge_node_key_set.
      repeat case_decide; try done; set_solver.
    + rewrite (keys_nodes _ _ _ (foldl_merge_edge_nodes _ _)).
      unfold g2, g1. rewrite !merge_node_key_set.
      repeat case_decide; try done; set_solver.
    + assert (Himp : imports_of g2 = imports_of g).
      { unfold g2. rewrite merge_node_imports by done.
        unfold g1. by rewrite merge_node_imports. }
      rewrite <-Himp. apply set_eq. intros [p n].
      rewrite elem_of_union, elem_of_singleton, !elem_of_imports_of.
      setoid_rewrite Hnodes. split.
      * intros (e & nf & nm & He & Hnf & Hnm & Hends).
        destruct (Hnew e He) as [He0 | Hp]; [left; by exists e, nf, nm|].
        right. rewrite Hends in Hp.
        apply Hpairs in Hp as (nf0 & nm0 & Hnf0 & Hnm0 & Hidf & Hidm).
        destruct Hwf2 as [Hnd2 _ _].
        apply elem_of_matching in Hnf as (Hnf & _ & <-).
        apply elem_of_matching in Hnm as (Hnm & _ & <-).
        apply elem_of_matching in Hnf0 as (Hnf0 & _ & <-).
        apply elem_of_matching in Hnm0 as (Hnm0 & _ & <-).
        by rewrite (node_id_inj g2 nf nf0), (node_id_inj g2 nm nm0).
      * intros [(e & nf & nm & He & Hnf & Hnm & Hends) | [= -> ->]].
        { exists e, nf, nm. split; [|done].
          destruct Hpre as [es ->]. apply elem_of_app. by left. }
        destruct (matching File path g2) as [|nf0 fs0] eqn:Hf0; [done|].
        destruct (matching Module_ mod_ g2) as [|nm0 ms0] eqn:Hm0; [done|].
        assert (Hin : (node_id nf0, node_id nm0) ∈ pairs).
        { apply Hpairs. exists nf0, nm0.
          split; [left|]. split; [left|done]. }
        apply Hall, list_elem_of_fmap in Hin as (e & Hends & He).
        exists e, nf0, nm0. split; [done|]. split; [left|]. split; [left|done].
Qed.

Lemma exec_view s g g' :
  well_formed g → exec s g = Ok g' →
  well_formed g' ∧ view_of g' = denote (view_of g) s.
Proof.
  intros Hwf. destruct s as [l|path|mod_ path].
  - unfold exec. destruct (bool_decide (l ∈ constraints g)); [by intros [= <-]|].
    destruct (bool_decide (NoDup (keys l g))); [|done]. intros [= <-].
    split; [by destruct Hwf|done].
  - rewrite exec_merge_file. intros [= <-].
    split; [by apply merge_node_well_formed|].
    apply view_eq; cbn [view_of denote files modules imports].
    + rewrite merge_node_key_set, decide_True by done. done.
    + rewrite merge_node_key_set, decide_False by done. set_solver.
    + by apply merge_node_imports.
  - by apply exec_merge_import_view.
Qed.

Lemma for_run_view stmts st :
  well_formed (db st) →
  well_formed (db (for_ stmts run st).1)
  ∧ ((for_ stmts run st).2 = Ok tt →
     view_of (db (for_ stmts run st).1) = foldl denote (view_of (db st)) stmts).
Proof.
  revert st. induction stmts as [|s stmts IH]; intros st Hwf; [done|].
  rewrite for_cons. pose proof (run_ok s st) as Hok.
  pose proof (run_raise s st) as Hfail.
  destruct (run s st) as [st1 [[]|e]] eqn:Hrun; cbn [fst snd] in *.
  - destruct (exec_view s (db st) (db st1) Hwf (Hok eq_refl)) as [Hwf1 Hv1].
    destruct (IH st1 Hwf1) as [Hwf' Hv']. split; [done|].
    intros Hres. cbn [foldl]. rewrite <-Hv1. by apply Hv'.
  - split; [|done]. by rewrite (Hfail e).
Qed.

(** ** What a call means *)

Lemma denote_imports path names : ∀ v,
  path ∈ files v →
  foldl denote v ((λ mod_, MergeImport mod_ path) <$> names)
  = {| files := files v; modules := modules v ∪ list_to_set names;
       imports := imports v
                  ∪ list_to_set ((λ mod_, (path, mod_)) <$> names) |}.
Proof.
  induction names as [|name names IH]; intros v Hpath.
  - apply view_eq; cbn; set_solver.
  - cbn [fmap list_fmap foldl]. rewrite IH by (cbn; set_solver).
    apply view_eq; cbn; set_solver.
Qed.

Lemma denote_batch file_node imps v :
  foldl denote v (batch file_node imps) = record_file v file_node imps.
Proof.
  unfold batch. cbn [app foldl]. rewrite denote_imports by (cbn; set_solver).
  apply view_eq; cbn [record_file denote files modules imports].
  - done.
  - f_equal. apply set_eq. intros x.
    by rewrite elem_of_list_to_set, elem_of_sorted.
  - f_equal. apply set_eq. intros [p n].
    rewrite elem_of_list_to_set, list_elem_of_fmap, elem_of_map.
    by setoid_rewrite elem_of_sorted.
Qed.

Lemma build_graph_well_formed file_node imps st :
  well_formed (db st) → well_formed (db (build_graph file_node imps st).1).
Proof. intros H. rewrite build_graph_batch. by apply for_run_view. Qed.

Lemma build_graph_view file_node imps st :
  well_formed (db st) →
  (build_graph file_node imps st).2 = Ok tt →
  view_of (db (build_graph file_node imps st).1)
  = record_file (view_of (db st)) file_node imps.
Proof.
  rewrite build_graph_batch. intros Hwf Hres.
  destruct (for_run_view (batch file_node imps) st Hwf) as [_ Hv].
  by rewrite Hv, denote_batch.
Qed.

(** X10. A call of [build_graph] that returns normally adds to the
    content of a well-formed graph the file, the modules, and an import
    of each module by the file; it adds nothing else, removes nothing,
    and leaves the graph well formed. *)
Theorem build_graph_records_file file_node imps st :
  well_formed (db st) →
  (build_graph file_node imps st).2 = Ok tt →
  well_formed (db (build_graph file_node imps st).1)
  ∧ view_of (db (build_graph file_node imps st).1)
    = {| files := files (view_of (db st)) ∪ {[ file_node ]};
         modules := modules (view_of (db st)) ∪ imps;
         imports := imports (view_of (db st))
                    ∪ set_map (λ mod_, (file_node, mod_)) imps |}.
Proof.
  intros Hwf Hres. split; [by apply build_graph_well_formed|].
  by apply build_graph_view.
Qed.

Lemma build_graph_records_file_witness :
  well_formed (db (new_store []))
  ∧ (build_graph (py "a.py") {[ py "json" ]} (new_store [])).2 = Ok tt
  ∧ well_formed
      (db (build_graph (py "a.py") {[ py "json" ]} (new_store [])).1)
  ∧ view_of (db (build_graph (py "a.py") {[ py "json" ]} (new_store [])).1)
    = {| files := files (view_of (db (new_store []))) ∪ {[ py "a.py" ]};
         modules := modules (view_of (db (new_store []))) ∪ {[ py "json" ]};
         imports := imports (view_of (db (new_store [])))
                    ∪ set_map (λ mod_, (py "a.py", mod_))
                        ({[ py "json" ]} : gset str) |}.
Proof.
  split; [exact well_formed_empty|].
  assert (H : (build_graph (py "a.py") {[ py "json" ]} (new_store [])).2
              = Ok tt) by (vm_compute; reflexivity).
  split; [exact H|].
  exact (build_graph_records_file (py "a.py") {[ py "json" ]} (new_store [])
           well_formed_empty H).
Defined.

(** ** When a call fails *)

Lemma tidy_distinct_keys g : tidy g → distinct_keys g.
Proof. by intros (? & ? & _). Qed.

Lemma distinct_keys_doubled_edge :
  distinct_keys doubled_edge ∧ ¬ tidy doubled_edge.
Proof.
  split; [split; compute_done|]. intros (_ & _ & Hedges). revert Hedges.
  compute_done.
Qed.

(** The statements keep the keys distinct. *)
Lemma exec_distinct_keys s g g' :
  distinct_keys g → exec s g = Ok g' → distinct_keys g'.
Proof.
  intros [Hf Hm]. destruct s as [l|path|mod_ path].
  - unfold exec. destruct (bool_decide (l ∈ constraints g)); [by intros [= <-]|].
    destruct (bool_decide (NoDup (keys l g))); [|done]. by intros [= <-].
  - intros [= <-]. split; by apply merge_node_keys_NoDup.
  - rewrite exec_merge_import. intros [= <-].
    split; rewrite (keys_nodes _ _ _ (foldl_merge_edge_nodes _ _));
      by do 2 apply merge_node_keys_NoDup.
Qed.

(** With distinct keys the graph refuses no statement. *)
Lemma exec_distinct_ok s g : distinct_keys g → ∃ g', exec s g = Ok g'.
Proof.
  intros [Hf Hm]. destruct s as [l|path|mod_ path].
  - unfold exec. destruct (bool_decide (l ∈ constraints g)); [by eexists|].
    rewrite bool_decide_eq_true_2; [by eexists|]. by destruct l.
  - by eexists.
  - rewrite exec_merge_import. by eexists.
Qed.

Lemma run_in_reach s st g' :
  unreachable st = false → exec s (db st) = Ok g' →
  run s st = ({| db := g'; outages := tail (outages st);
                 journal := journal st ++ [{| sent := s; failure := None |}] |},
              Ok tt).
Proof.
  unfold run, unreachable. intros Hr ->. by destruct (outages st) as [|[] ?].
Qed.

(** On a graph with distinct keys, a run of statements fails only when
    the store is out of reach. *)
Lemma for_run_distinct stmts : ∀ st,
  distinct_keys (db st) →
  ((for_ stmts run st).2 = Ok tt ↔ in_reach (length stmts) st)
  ∧ (∀ e, (for_ stmts run st).2 = Raise e → e = ServiceUnavailable).
Proof.
  unfold in_reach. induction stmts as [|s stmts IH]; intros st Hkeys.
  - split; [|done]. split; [|done]. intros _. cbn. apply not_elem_of_nil.
  - rewrite for_cons. destruct (outages st) as [|[] os] eqn:Hout.
    + destruct (exec_distinct_ok s (db st) Hkeys) as [g' Hexec].
      rewrite (run_in_reach s st g');
        [|unfold unreachable; by rewrite Hout|done].
      rewrite Hout. cbn [tail].
      match goal with |- context [for_ stmts run ?st1] =>
        destruct (IH st1) as [IH1 IH2]; [by eapply exec_distinct_keys|] end.
      cbn [outages] in IH1. rewrite take_nil in *. done.
    + rewrite (run_outage s st os) by done. split.
      * split; [done|]. intros H. destruct H. cbn. left.
      * by intros e [= <-].
    + destruct (exec_distinct_ok s (db st) Hkeys) as [g' Hexec].
      rewrite (run_in_reach s st g');
        [|unfold unreachable; by rewrite Hout|done].
      rewrite Hout. cbn [tail].
      match goal with |- context [for_ stmts run ?st1] =>
        destruct (IH st1) as [IH1 IH2]; [by eapply exec_distinct_keys|] end.
      cbn [outages] in IH1. split; [|done].
      rewrite IH1. cbn [length take]. rewrite not_elem_of_cons. naive_solver.
Qed.

Lemma batch_length file_node imps :
  length (batch file_node imps) = (3 + size imps)%nat.
Proof.
  unfold batch. rewrite length_app, length_fmap, sorted_Permutation. done.
Qed.

(** X11. On a graph whose keys are distinct, [build_graph] returns
    normally exactly when the store is in reach for each of its
    statements: three, and one for each module. *)
Theorem build_graph_succeeds_iff file_node imps st :
  NoDup (keys File (db st)) → NoDup (keys Module_ (db st)) →
  ((build_graph file_node imps st).2 = Ok tt
   ↔ in_reach (3 + size imps) st).
Proof.
  intros Hf Hm. rewrite build_graph_batch, <-(batch_length file_node).
  by apply for_run_distinct.
Qed.

Lemma build_graph_succeeds_iff_witness :
  NoDup (keys File (db (reliable doubled_edge)))
  ∧ NoDup (keys Module_ (db (reliable doubled_edge)))
  ∧ ((build_graph (py "a.py") {[ py "json" ]} (reliable doubled_edge)).2
     = Ok tt
     ↔ in_reach (3 + size ({[ py "json" ]} : gset str))
         (reliable doubled_edge)).
Proof.
  assert (Hf : NoDup (keys File (db (reliable doubled_edge))))
    by compute_done.
  assert (Hm : NoDup (keys Module_ (db (reliable doubled_edge))))
    by compute_done.
  split; [exact Hf|]. split; [exact Hm|].
  exact (build_graph_succeeds_iff (py "a.py") {[ py "json" ]}
           (reliable doubled_edge) Hf Hm).
Defined.

(** X12. In a database that only [build_graph] has written to, the
    creation of a constraint is never refused: a call returns normally
    or fails because the store is out of reach. *)
Theorem build_graph_fails_by_outage_only calls script file_node imps :
  (build_graph file_node imps (after calls (new_store script))).2 = Ok tt
  ∨ (build_graph file_node imps (after calls (new_store script))).2
    = Raise ServiceUnavailable.
Proof.
  assert (Hkeys : distinct_keys (db (after calls (new_store script))))
    by apply tidy_distinct_keys, after_tidy, tidy_empty.
  rewrite build_graph_batch.
  destruct (for_run_distinct (batch file_node imps) _ Hkeys) as [_ Hfail].
  destruct (for_ _ run _).2 as [[]|e]; [by left|right].
  by rewrite (Hfail e).
Qed.

(** ** The order of the calls *)

Lemma for_run_outages stmts : ∀ st,
  outages st = [] → outages (for_ stmts run st).1 = [].
Proof.
  induction stmts as [|s stmts IH]; intros st Hout; [done|].
  rewrite for_cons. unfold run. rewrite Hout.
  destruct (exec s (db st)) as [g'|e]; [|done]. by apply IH.
Qed.

Lemma record_file_comm v f1 i1 f2 i2 :
  record_file (record_file v f1 i1) f2 i2
  = record_file (record_file v f2 i2) f1 i1.
Proof. apply view_eq; cbn; set_solver. Qed.

Lemma record_files_Permutation calls calls' :
  calls ≡ₚ calls' → ∀ v, record_files v calls = record_files v calls'.
Proof.
  unfold record_files.
  induction 1 as [|c l l' _ IH|c1 c2 l|l1 l2 l3 _ IH1 _ IH2]; intros v;
    cbn [foldl].
  - done.
  - apply IH.
  - by rewrite record_file_comm.
  - by rewrite IH1.
Qed.

(** On a store that stays in reach, every call returns normally and adds
    its file to the content. *)
Lemma build_graph_distinct_keys file_node imps st :
  distinct_keys (db st) →
  distinct_keys (db (build_graph file_node imps st).1).
Proof.
  intros H. rewrite build_graph_batch.
  apply (for_run_preserves distinct_keys); [|done].
  intros s g g'. apply exec_distinct_keys.
Qed.

Lemma after_view calls : ∀ st,
  outages st = [] → distinct_keys (db st) → well_formed (db st) →
  outages (after calls st) = []
  ∧ distinct_keys (db (after calls st))
  ∧ well_formed (db (after calls st))
  ∧ view_of (db (after calls st)) = record_files (view_of (db st)) calls.
Proof.
  unfold after, record_files.
  induction calls as [|[f imps] calls IH]; intros st Hout Hkeys Hwf; [done|].
  cbn [foldl fst snd].
  assert (Hres : (build_graph f imps st).2 = Ok tt).
  { rewrite build_graph_batch. apply for_run_distinct; [done|].
    unfold in_reach. rewrite Hout, take_nil. apply not_elem_of_nil. }
  rewrite <-(build_graph_view f imps st) by done.
  apply IH.
  - rewrite build_graph_batch. by apply for_run_outages.
  - by apply build_graph_distinct_keys.
  - by apply build_graph_well_formed.
Qed.

(** X13. On a store that stays in reach, the content of the graph after
    a sequence of calls does not depend on the order of the calls:
    it is the content before, with every file, every module and every
    import of the sequence added. *)
Theorem content_independent_of_order calls calls' st :
  outages st = [] →
  NoDup (keys File (db st)) → NoDup (keys Module_ (db st)) →
  well_formed (db st) →
  calls ≡ₚ calls' →
  view_of (db (after calls st)) = view_of (db (after calls' st))
  ∧ view_of (db (after calls st)) = record_files (view_of (db st)) calls.
Proof.
  intros Hout Hf Hm Hwf Hperm.
  destruct (after_view calls st) as (_ & _ & _ & ->); [done..|].
  destruct (after_view calls' st) as (_ & _ & _ & ->); [done..|].
  split; [|done]. by apply record_files_Permutation.
Qed.

Lemma well_formed_doubled_edge : well_formed doubled_edge.
Proof.
  split; cbn [doubled_edge nodes edges next_id].
  - compute_done.
  - apply Forall_forall. repeat (apply Forall_cons; split); cbn; try lia.
    by apply Forall_nil.
  - apply Forall_forall. repeat (apply Forall_cons; split); cbn; try lia.
    by apply Forall_nil.
Qed.

Lemma content_independent_of_order_witness :
  outages (reliable doubled_edge) = []
  ∧ NoDup (keys File (db (reliable doubled_edge)))
  ∧ NoDup (keys Module_ (db (reliable doubled_edge)))
  ∧ well_formed (db (reliable doubled_edge))
  ∧ [(py "a.py", {[ py "json" ]} : gset str); (py "b.js", ∅)]
    ≡ₚ [(py "b.js", ∅); (py "a.py", {[ py "json" ]})]
  ∧ view_of (db (after [(py "a.py", {[ py "json" ]}); (py "b.js", ∅)]
                   (reliable doubled_edge)))
    = view_of (db (after [(py "b.js", ∅); (py "a.py", {[ py "json" ]})]
                     (reliable doubled_edge)))
  ∧ view_of (db (after [(py "a.py", {[ py "json" ]}); (py "b.js", ∅)]
                   (reliable doubled_edge)))
    = record_files (view_of (db (reliable doubled_edge)))
        [(py "a.py", {[ py "json" ]}); (py "b.js", ∅)].
Proof.
  assert (Hf : NoDup (keys File (db (reliable doubled_edge))))
    by compute_done.
  assert (Hm : NoDup (keys Module_ (db (reliable doubled_edge))))
    by compute_done.
  split; [reflexivity|]. split; [exact Hf|]. split; [exact Hm|].
  split; [exact well_formed_doubled_edge|].
  split; [apply Permutation_swap|].
  exact (content_independent_of_order _ _ (reliable doubled_edge) eq_refl
           Hf Hm well_formed_doubled_edge (Permutation_swap _ _ _)).
Defined.

(* ===================================================================== *)
(** * Part XII: properties of the walk of [main] *)
(* ===================================================================== *)

(** ** One path *)

Lemma for_paths_cons p paths body st :
  for_paths (p :: paths) body st =
  match body p st with
  | (out, st', Ok _) =>
      let '(out', st'', r) := for_paths paths body st' in
      (out ++ out', st'', r)
  | (out, st', Raise e) => (out, st', Raise e)
  end.
Proof. reflexivity. Qed.

Section OnePath.

Variables (W : world) (C : checkout) (p : Path) (st : store).

(** A path with another extension is passed over. *)
Lemma visit_path_skip :
  supported p = false → visit_path W C p st = ([], st, Ok tt).
Proof. unfold visit_path. by intros ->. Qed.

Lemma visit_path_no_name e :
  supported p = true → relative_to C p = Raise e →
  visit_path W C p st = ([], st, Raise e).
Proof.
  unfold visit_path, mbind, Main_bind, of_result. by intros -> ->.
Qed.

(** An extraction that raises ends the visit before anything is sent. *)
Lemma visit_path_no_imports rel log e :
  supported p = true → relative_to C p = Ok rel →
  extract_imports W p = (log, Raise e) →
  visit_path W C p st = (Lib <$> log, st, Raise e).
Proof.
  unfold visit_path, mbind, Main_bind, of_result, of_ext.
  by intros -> -> ->.
Qed.

(** A line that cannot be printed ends the visit before anything is
    sent. *)
Lemma visit_path_no_line rel log imps e :
  supported p = true → relative_to C p = Ok rel →
  extract_imports W p = (log, Ok imps) →
  stdout C rel imps = Raise e →
  visit_path W C p st = (Lib <$> log, st, Raise e).
Proof.
  unfold visit_path, mbind, Main_bind, of_result, of_ext, print_imports.
  intros -> -> -> Hline. cbn [fst snd]. rewrite Hline.
  by rewrite app_nil_r.
Qed.

Lemma visit_path_build rel log imps :
  supported p = true → relative_to C p = Ok rel →
  extract_imports W p = (log, Ok imps) →
  stdout C rel imps = Ok tt →
  visit_path W C p st
  = ((Lib <$> log) ++ [Line rel imps],
     (build_graph rel imps st).1, (build_graph rel imps st).2).
Proof.
  unfold visit_path, mbind, Main_bind, of_result, of_ext, print_imports,
    of_db.
  intros -> -> -> Hline. cbn [fst snd]. rewrite Hline.
  by destruct (build_graph rel imps st) as [st' r].
Qed.

(** An extraction raises only for a JSLike file that cannot be read. *)
Lemma extract_imports_cases :
  (∃ e, js_like p ∧ file_text W p = Raise e
        ∧ extract_imports W p = ([ReadText p], Raise e))
  ∨ (∃ log mods, extract_imports W p = (log, Ok mods)
                 ∧ (js_like p → ∃ text, file_text W p = Ok text)).
Proof.
  unfold extract_imports, js_like.
  destruct (decide (suffix p ∈ [py ".py"])) as [Hpy|Hpy].
  - rewrite bool_decide_eq_true_2 by done. right.
    destruct (extract_python_imports_total W p) as (log & mods & ->).
    exists log, mods. split; [done|].
    apply list_elem_of_singleton in Hpy. rewrite Hpy.
    intros Hjs. exfalso. revert Hjs. compute_done.
  - rewrite bool_decide_eq_false_2 by done.
    destruct (decide (suffix p ∈ [py ".js"; py ".ts"])) as [Hjs|Hjs].
    + rewrite bool_decide_eq_true_2 by done.
      destruct (file_text W p) as [text|e] eqn:Hread.
      * right. destruct (finditer_module_strings text) as [wholes Hwholes].
        rewrite (extract_js_imports_read W p text wholes) by done.
        do 2 eexists. split; [done|]. by exists text.
      * left. exists e. by rewrite (extract_js_imports_unreadable W p e).
    + rewrite bool_decide_eq_false_2 by done. right. by exists [], ∅.
Qed.

Lemma visit_path_visited : visited W C p st (visit_path W C p st).
Proof.
  destruct (supported p) eqn:Hs.
  2:{ rewrite visit_path_skip by done. by constructor. }
  destruct (relative_to C p) as [rel|e] eqn:Hrel.
  2:{ rewrite (visit_path_no_name e) by done. by constructor. }
  destruct extract_imports_cases
    as [(e & Hjs & Hread & Hex) | (log & mods & Hex & Hjs)].
  - rewrite (visit_path_no_imports rel _ e Hs Hrel Hex).
    by eapply visited_no_imports.
  - destruct (stdout C rel mods) as [[]|e] eqn:Hout.
    + rewrite (visit_path_build rel log mods Hs Hrel Hex Hout).
      by eapply visited_build.
    + rewrite (visit_path_no_line rel log mods e Hs Hrel Hex Hout).
      by eapply visited_no_line.
Qed.

End OnePath.

Lemma main_unfold W C st :
  main W C st =
  match for_paths (rglob C) (visit_path W C) st with
  | (out, st', Ok _) => (out ++ [Close; Done], st', Ok tt)
  | (out, st', Raise e) => (out, st', Raise e)
  end.
Proof.
  unfold main, walk_code_files, mbind, Main_bind, emit.
  by destruct (for_paths _ _ st) as [[out st'] [[]|e]].
Qed.

(** ** Files that are not code *)

Lemma for_paths_supported W C paths : ∀ st,
  for_paths paths (visit_path W C) st
  = for_paths (filter (λ p, supported p) paths) (visit_path W C) st.
Proof.
  induction paths as [|p paths IH]; intros st; [done|].
  destruct (supported p) eqn:Hs.
  - rewrite filter_cons_True by by rewrite Hs.
    rewrite !for_paths_cons.
    destruct (visit_path W C p st) as [[out st'] [[]|e]]; [|done].
    by rewrite IH.
  - rewrite filter_cons_False by (rewrite Hs; cbn; auto).
    rewrite for_paths_cons, visit_path_skip by done.
    rewrite IH. by destruct (for_paths _ _ st) as [[out st'] r].
Qed.

(** X14. Paths whose extension is none of [.py], [.js], [.ts] leave no
    mark on a run of [main]: with them or without them in the listing,
    the trace, the store and the result are the same. *)
Theorem main_skips_other_files W C st :
  main W C st
  = main W (with_rglob C (filter (λ p, supported p) (rglob C))) st.
Proof.
  rewrite !main_unfold. cbn [with_rglob rglob].
  change (visit_path W (with_rglob C _)) with (visit_path W C).
  by rewrite <-for_paths_supported.
Qed.

(** ** The driver *)

Lemma visit_path_events W C p st :
  Forall during_walk (visit_path W C p st).1.1.
Proof.
  destruct (visit_path_visited W C p st)
    as [?|e ? ?|rel e ? ? ? ?|rel log imps e ? ? ? ?|rel log imps ? ? ? ? ?];
    cbn [fst]; try by apply Forall_nil.
  - by apply Forall_singleton.
  - apply Forall_fmap. by apply Forall_true.
  - apply Forall_app. split; [|by apply Forall_singleton].
    apply Forall_fmap. by apply Forall_true.
Qed.

Lemma for_paths_events W C paths : ∀ st,
  Forall during_walk (for_paths paths (visit_path W C) st).1.1.
Proof.
  induction paths as [|p paths IH]; intros st; [by apply Forall_nil|].
  rewrite for_paths_cons. pose proof (visit_path_events W C p st) as Hp.
  destruct (visit_path W C p st) as [[out st'] [[]|e]]; [|done].
  specialize (IH st').
  destruct (for_paths paths (visit_path W C) st') as [[out' st''] r].
  cbn [fst] in *. by apply Forall_app.
Qed.

(** X15. [main] closes the driver only at the end of a walk in which
    nothing was raised.  When something is raised the driver is left
    open and [Done.] is not printed: the run ends where the walk
    ended. *)
Theorem driver_closed_on_success_only W C st :
  match result_of (main W C st) with
  | Ok _ =>
      ∃ out, trace (main W C st) = out ++ [Close; Done]
             ∧ Forall during_walk out
  | Raise _ =>
      Forall during_walk (trace (main W C st))
      ∧ main W C st = walk_code_files W C st
  end.
Proof.
  unfold result_of, trace, walk_code_files. rewrite main_unfold.
  pose proof (for_paths_events W C (rglob C) st) as Hev.
  destruct (for_paths (rglob C) (visit_path W C) st) as [[out st'] [[]|e]];
    cbn [fst snd] in *; [by exists out|done].
Qed.

(** ** A file that stops the walk *)

Lemma for_paths_app paths1 paths2 body : ∀ st,
  for_paths (paths1 ++ paths2) body st =
  match for_paths paths1 body st with
  | (out, st', Ok _) =>
      let '(out', st'', r) := for_paths paths2 body st' in
      (out ++ out', st'', r)
  | (out, st', Raise e) => (out, st', Raise e)
  end.
Proof.
  induction paths1 as [|p paths1 IH]; intros st.
  - cbn. by destruct (for_paths paths2 body st) as [[out st'] r].
  - cbn [app]. rewrite !for_paths_cons.
    destruct (body p st) as [[out st1] [[]|e]]; [|done].
    rewrite IH.
    destruct (for_paths paths1 body st1) as [[out1 st2] [[]|e]]; [|done].
    destruct (for_paths paths2 body st2) as [[out2 st3] r].
    by rewrite (assoc_L (++)).
Qed.

Lemma js_like_supported p : js_like p → supported p = true.
Proof. intros H. apply bool_decide_eq_true. by right. Qed.

(** A JSLike file that cannot be read ends its visit with an exception,
    and nothing is sent to the store. *)
Lemma visit_path_unreadable W C p st e :
  js_like p → file_text W p = Raise e →
  ∃ out e', visit_path W C p st = (out, st, Raise e').
Proof.
  intros Hjs Hread.
  destruct (visit_path_visited W C p st)
    as [Hs|e' Hs Hrel|rel e' Hs Hrel _ _|rel log imps e' Hs Hrel Hex _
       |rel log imps Hs Hrel Hex Hok _].
  - by rewrite js_like_supported in Hs.
  - by do 2 eexists.
  - by do 2 eexists.
  - by do 2 eexists.
  - destruct (Hok Hjs) as [text Htext]. congruence.
Qed.

(** X16. A JSLike file that cannot be read ends the run.  The run
    raises, and what lies after that file in the listing is never
    looked at: trace, store and result are those of a listing that ends
    with the file. *)
Theorem main_stops_at_unreadable W C st pre p rest e :
  rglob C = pre ++ p :: rest →
  js_like p → file_text W p = Raise e →
  main W C st = main W (with_rglob C (pre ++ [p])) st
  ∧ ∃ e', result_of (main W C st) = Raise e'.
Proof.
  intros Hlist Hjs Hread. unfold result_of. rewrite !main_unfold.
  cbn [with_rglob rglob].
  change (visit_path W (with_rglob C _)) with (visit_path W C).
  rewrite Hlist, !for_paths_app.
  destruct (for_paths pre (visit_path W C) st) as [[out st1] [[]|e1]].
  - rewrite !for_paths_cons.
    destruct (visit_path_unreadable W C p st1 e Hjs Hread)
      as (out' & e' & ->).
    split; [done|]. by exists e'.
  - split; [done|]. by exists e1.
Qed.

Lemma main_stops_at_unreadable_witness :
  rglob undecodable_checkout = [readme_md] ++ b_js :: [a_py]
  ∧ js_like b_js
  ∧ file_text undecodable_world b_js = Raise UnicodeDecodeError
  ∧ main undecodable_world undecodable_checkout (new_store [])
    = main undecodable_world
        (with_rglob undecodable_checkout ([readme_md] ++ [b_js]))
        (new_store [])
  ∧ ∃ e', result_of (main undecodable_world undecodable_checkout
                       (new_store [])) = Raise e'.
Proof.
  assert (Hjs : js_like b_js) by (unfold js_like; compute_done).
  split; [reflexivity|]. split; [exact Hjs|]. split; [reflexivity|].
  exact (main_stops_at_unreadable undecodable_world undecodable_checkout
           (new_store []) [readme_md] b_js [a_py] UnicodeDecodeError
           eq_refl Hjs eq_refl).
Defined.

(** ** When the run succeeds *)

Lemma visit_path_reliable W C p st :
  outages st = [] → distinct_keys (db st) →
  outages (visit_path W C p st).1.2 = []
  ∧ distinct_keys (db (visit_path W C p st).1.2)
  ∧ ((visit_path W C p st).2 = Ok tt ↔ passes W C p).
Proof.
  intros Hout Hkeys. unfold passes.
  destruct (visit_path_visited W C p st)
    as [Hs|e Hs Hrel|rel e Hs Hrel Hjs Hread|rel log imps e Hs Hrel Hex Hline
       |rel log imps Hs Hrel Hex Hok Hline];
    cbn [fst snd].
  - split; [done|]. split; [done|]. split; [|done]. intros _. by rewrite Hs.
  - split; [done|]. split; [done|]. split; [done|].
    intros H. destruct (H Hs) as (rel & Hrel' & _). congruence.
  - split; [done|]. split; [done|]. split; [done|].
    intros H. destruct (H Hs) as (rel' & _ & Hr & _).
    destruct (Hr Hjs) as [text ?]. congruence.
  - split; [done|]. split; [done|]. split; [done|].
    intros H. destruct (H Hs) as (rel' & Hrel' & _ & Hline').
    unfold found in Hline'. rewrite Hex in Hline'. cbn [snd] in Hline'.
    congruence.
  - split; [rewrite build_graph_batch; by apply for_run_outages|].
    split; [by apply build_graph_distinct_keys|]. split.
    + intros _ _. exists rel. split; [done|]. split; [done|].
      unfold found. by rewrite Hex.
    + intros _. rewrite build_graph_batch. apply for_run_distinct; [done|].
      unfold in_reach. rewrite Hout, take_nil. apply not_elem_of_nil.
Qed.

Lemma for_paths_reliable W C paths : ∀ st,
  outages st = [] → distinct_keys (db st) →
  ((for_paths paths (visit_path W C) st).2 = Ok tt
   ↔ Forall (passes W C) paths).
Proof.
  induction paths as [|p paths IH]; intros st Hout Hkeys.
  - split; [by constructor|done].
  - rewrite for_paths_cons, Forall_cons.
    destruct (visit_path_reliable W C p st Hout Hkeys) as (Ho & Ht & Hres).
    destruct (visit_path W C p st) as [[out st1] [[]|e]]; cbn [fst snd] in *.
    + specialize (IH st1 Ho Ht).
      destruct (for_paths paths (visit_path W C) st1) as [[out' st2] r].
      cbn [snd] in *. rewrite IH. split; [|by intros [_ ?]].
      intros H. split; [by apply Hres|done].
    + split; [done|]. intros [Hp _]. by apply Hres in Hp.
Qed.

(** X17. With a store that stays in reach and a graph in which no two
    files have the same path and no two modules the same name, [main]
    runs to its end exactly when no supported path of the listing stops
    it: each has a relative name, can be read when it is JSLike, and
    has its line printed.  Nothing in the content of a PythonLike file
    can stop the run. *)
Theorem main_succeeds_iff W C st :
  outages st = [] →
  NoDup (keys File (db st)) → NoDup (keys Module_ (db st)) →
  (result_of (main W C st) = Ok tt ↔ Forall (passes W C) (rglob C)).
Proof.
  intros Hout Hf Hm. unfold result_of. rewrite main_unfold.
  rewrite <-(for_paths_reliable W C (rglob C) st Hout (conj Hf Hm)).
  by destruct (for_paths (rglob C) (visit_path W C) st)
    as [[out st'] [[]|e]].
Qed.

Lemma main_succeeds_iff_witness :
  outages (reliable doubled_edge) = []
  ∧ NoDup (keys File (db (reliable doubled_edge)))
  ∧ NoDup (keys Module_ (db (reliable doubled_edge)))
  ∧ (result_of (main scenario_world scenario_checkout
                  (reliable doubled_edge)) = Ok tt
     ↔ Forall (passes scenario_world scenario_checkout)
         (rglob scenario_checkout)).
Proof.
  assert (Hf : NoDup (keys File (db (reliable doubled_edge))))
    by compute_done.
  assert (Hm : NoDup (keys Module_ (db (reliable doubled_edge))))
    by compute_done.
  split; [reflexivity|]. split; [exact Hf|]. split; [exact Hm|].
  exact (main_succeeds_iff scenario_world scenario_checkout
           (reliable doubled_edge) eq_refl Hf Hm).
Defined.

(** ** What a run records *)

Lemma calls_for_cons W C p paths :
  calls_for W C (p :: paths)
  = match (if supported p then
             match relative_to C p with
             | Ok rel => Some (rel, found (extract_imports W p))
             | Raise _ => None
             end
           else None) with
    | Some call => call :: calls_for W C paths
    | None => calls_for W C paths
    end.
Proof. reflexivity. Qed.

Lemma for_paths_view W C paths : ∀ st,
  well_formed (db st) →
  (for_paths paths (visit_path W C) st).2 = Ok tt →
  well_formed (db (for_paths paths (visit_path W C) st).1.2)
  ∧ view_of (db (for_paths paths (visit_path W C) st).1.2)
    = record_files (view_of (db st)) (calls_for W C paths).
Proof.
  induction paths as [|p paths IH]; intros st Hwf; [done|].
  rewrite for_paths_cons, calls_for_cons.
  destruct (visit_path_visited W C p st)
    as [Hs|e Hs Hrel|rel e Hs Hrel Hjs Hread|rel log imps e Hs Hrel Hex Hline
       |rel log imps Hs Hrel Hex Hok Hline];
    [|done..|].
  - rewrite Hs. specialize (IH st Hwf).
    by destruct (for_paths paths (visit_path W C) st) as [[out' st2] r].
  - rewrite Hs, Hrel. unfold found. rewrite Hex. cbn [snd].
    pose proof (build_graph_well_formed rel imps st Hwf) as Hwf1.
    pose proof (build_graph_view rel imps st Hwf) as Hv1.
    destruct (build_graph rel imps st) as [st1 [[]|e]]; [|done].
    cbn [fst snd] in *. specialize (IH st1 Hwf1).
    destruct (for_paths paths (visit_path W C) st1) as [[out' st2] r].
    cbn [fst snd] in *. intros Hr. destruct (IH Hr) as [Hwf2 ->].
    split; [done|]. unfold record_files. cbn [foldl fst snd].
    by rewrite Hv1.
Qed.

Lemma main_view W C st :
  well_formed (db st) → result_of (main W C st) = Ok tt →
  view_of (db (store_after (main W C st)))
  = record_files (view_of (db st)) (calls_for W C (rglob C)).
Proof.
  unfold result_of, store_after. rewrite main_unfold. intros Hwf.
  pose proof (for_paths_view W C (rglob C) st Hwf) as Hv.
  destruct (for_paths (rglob C) (visit_path W C) st) as [[out st'] [[]|e]];
    [|done].
  intros _. by apply Hv.
Qed.

(** X18. A run of [main] that reaches its end adds to the content of
    the graph every supported path of the listing, under its relative
    name, with the modules found in it and an import for each; it adds
    nothing else and removes nothing. *)
Theorem main_records_every_file W C st :
  well_formed (db st) → result_of (main W C st) = Ok tt →
  view_of (db (store_after (main W C st)))
  = foldl (λ v p,
      if supported p then
        match relative_to C p with
        | Ok rel =>
            {| files := files v ∪ {[ rel ]};
               modules := modules v ∪ found (extract_imports W p);
               imports := imports v
                 ∪ set_map (λ mod_, (rel, mod_))
                     (found (extract_imports W p)) |}
        | Raise _ => v
        end
      else v) (view_of (db st)) (rglob C).
Proof.
  intros Hwf Hres. rewrite main_view by done.
  generalize (view_of (db st)).
  induction (rglob C) as [|p paths IH]; intros v; [done|].
  rewrite calls_for_cons. cbn [foldl].
  destruct (supported p); [|apply IH].
  destruct (relative_to C p) as [rel|e]; [|apply IH].
  unfold record_files. cbn [foldl fst snd]. apply IH.
Qed.

Lemma main_records_every_file_witness :
  well_formed (db (new_store []))
  ∧ result_of (main scenario_world scenario_checkout (new_store [])) = Ok tt
  ∧ view_of (db (store_after
                   (main scenario_world scenario_checkout (new_store []))))
    = foldl (λ v p,
        if supported p then
          match relative_to scenario_checkout p with
          | Ok rel =>
              {| files := files v ∪ {[ rel ]};
                 modules := modules v
                            ∪ found (extract_imports scenario_world p);
                 imports := imports v
                   ∪ set_map (λ mod_, (rel, mod_))
                       (found (extract_imports scenario_world p)) |}
          | Raise _ => v
          end
        else v) (view_of (db (new_store []))) (rglob scenario_checkout).
Proof.
  assert (H : result_of (main scenario_world scenario_checkout (new_store []))
              = Ok tt) by (vm_compute; reflexivity).
  split; [exact well_formed_empty|]. split; [exact H|].
  exact (main_records_every_file scenario_world scenario_checkout
           (new_store []) well_formed_empty H).
Defined.

(** ** The order of the listing *)

(** X19. The content of the graph after a run that reaches its end does
    not depend on the order in which [rglob] yields the paths. *)
Theorem main_independent_of_listing_order W C paths' st :
  well_formed (db st) → rglob C ≡ₚ paths' →
  result_of (main W C st) = Ok tt →
  result_of (main W (with_rglob C paths') st) = Ok tt →
  view_of (db (store_after (main W C st)))
  = view_of (db (store_after (main W (with_rglob C paths') st))).
Proof.
  intros Hwf Hperm Hres Hres'. rewrite !main_view by done.
  cbn [with_rglob rglob].
  change (calls_for W (with_rglob C paths')) with (calls_for W C).
  apply record_files_Permutation. unfold calls_for. by rewrite Hperm.
Qed.

Lemma main_independent_of_listing_order_witness :
  well_formed (db (new_store []))
  ∧ rglob scenario_checkout ≡ₚ [b_js; a_py; readme_md]
  ∧ result_of (main scenario_world scenario_checkout (new_store [])) = Ok tt
  ∧ result_of (main scenario_world
                 (with_rglob scenario_checkout [b_js; a_py; readme_md])
                 (new_store [])) = Ok tt
  ∧ view_of (db (store_after
                   (main scenario_world scenario_checkout (new_store []))))
    = view_of (db (store_after
                     (main scenario_world
                        (with_rglob scenario_checkout
                           [b_js; a_py; readme_md])
                        (new_store [])))).
Proof.
  assert (Hperm : rglob scenario_checkout ≡ₚ [b_js; a_py; readme_md])
    by apply (Permutation_app_comm [a_py; readme_md] [b_js]).
  assert (H : result_of (main scenario_world scenario_checkout (new_store []))
              = Ok tt) by (vm_compute; reflexivity).
  assert (H' : result_of (main scenario_world
                 (with_rglob scenario_checkout [b_js; a_py; readme_md])
                 (new_store [])) = Ok tt) by (vm_compute; reflexivity).
  split; [exact well_formed_empty|]. split; [exact Hperm|].
  split; [exact H|]. split; [exact H'|].
  exact (main_independent_of_listing_order scenario_world scenario_checkout
           [b_js; a_py; readme_md] (new_store []) well_formed_empty Hperm
           H H').
Defined.

(** The scenario of the specification, run by [main]: both files are
    read, the file that is not code is passed over, and the driver is
    closed. *)
Example scenario_run :
  trace (main scenario_world scenario_checkout (new_store []))
  = [Lib (ReadText a_py); Lib (AstParse scenario_a);
     Line (py "a.py") {[ py "json" ]};
     Lib (ReadText b_js); Lib (ReFinditer scenario_b);
     Line (py "b.js") {[ py "react-dom" ]};
     Close; Done]
  ∧ view_of (db (store_after
                   (main scenario_world scenario_checkout (new_store []))))
    = {| files := {[ py "a.py"; py "b.js" ]};
         modules := {[ py "json"; py "react-dom" ]};
         imports := {[ (py "a.py", py "json");
                       (py "b.js", py "react-dom") ]} |}.
Proof. split; vm_compute; reflexivity. Qed.

(** ** A second run *)

Lemma record_files_sets calls : ∀ v,
  record_files v calls
  = {| files := files v ∪ list_to_set calls.*1;
       modules := modules v ∪ ⋃ calls.*2;
       imports := imports v
         ∪ ⋃ ((λ call, set_map (λ mod_, (call.1, mod_)) call.2) <$> calls) |}.
Proof.
  unfold record_files.
  induction calls as [|[f imps] calls IH]; intros v.
  - apply view_eq; cbn; set_solver.
  - cbn [foldl]. rewrite IH. apply view_eq; cbn; set_solver.
Qed.

Lemma record_files_twice calls v :
  record_files (record_files v calls) calls = record_files v calls.
Proof. rewrite !record_files_sets. apply view_eq; cbn; set_solver. Qed.

Lemma main_well_formed W C st :
  well_formed (db st) → result_of (main W C st) = Ok tt →
  well_formed (db (store_after (main W C st))).
Proof.
  unfold result_of, store_after. rewrite main_unfold. intros Hwf.
  pose proof (for_paths_view W C (rglob C) st Hwf) as Hv.
  destruct (for_paths (rglob C) (visit_path W C) st) as [[out st'] [[]|e]];
    [|done].
  intros _. by apply Hv.
Qed.

(** X20. Scanning the same checkout a second time adds nothing: when
    both runs reach their end, the content of the graph after the
    second is that after the first. *)
Theorem second_run_adds_nothing W C st :
  well_formed (db st) →
  result_of (main W C st) = Ok tt →
  result_of (main W C (store_after (main W C st))) = Ok tt →
  view_of (db (store_after (main W C (store_after (main W C st)))))
  = view_of (db (store_after (main W C st))).
Proof.
  intros Hwf Hres Hres'.
  rewrite (main_view W C (store_after (main W C st)))
    by (done || by apply main_well_formed).
  rewrite (main_view W C st) by done. apply record_files_twice.
Qed.

Lemma second_run_adds_nothing_witness :
  well_formed (db (new_store []))
  ∧ result_of (main scenario_world scenario_checkout (new_store [])) = Ok tt
  ∧ result_of (main scenario_world scenario_checkout
                 (store_after (main scenario_world scenario_checkout
                                 (new_store [])))) = Ok tt
  ∧ view_of (db (store_after
                   (main scenario_world scenario_checkout
                      (store_after (main scenario_world scenario_checkout
                                      (new_store []))))))
    = view_of (db (store_after
                     (main scenario_world scenario_checkout (new_store [])))).
Proof.
  assert (H : result_of (main scenario_world scenario_checkout (new_store []))
              = Ok tt) by (vm_compute; reflexivity).
  assert (H' : result_of (main scenario_world scenario_checkout
                 (store_after (main scenario_world scenario_checkout
                                 (new_store [])))) = Ok tt)
    by (vm_compute; reflexivity).
  split; [exact well_formed_empty|]. split; [exact H|]. split; [exact H'|].
  exact (second_run_adds_nothing scenario_world scenario_checkout
           (new_store []) well_formed_empty H H').
Defined.

(** ** What a run keeps *)

Lemma build_graph_extends file_node imps st :
  extends (db st) (db (build_graph file_node imps st).1).
Proof.
  rewrite build_graph_batch.
  apply (for_run_preserves (extends (db st))); [|done].
  intros s g g' Hg Hexec. etrans; [done|]. by eapply exec_extends.
Qed.

Lemma visit_path_extends W C p st :
  extends (db st) (db (visit_path W C p st).1.2).
Proof.
  destruct (visit_path_visited W C p st)
    as [?|e ? ?|rel e ? ? ? ?|rel log imps e ? ? ? ?|rel log imps ? ? ? ? ?];
    cbn [fst snd]; try done.
  apply build_graph_extends.
Qed.

Lemma for_paths_extends W C paths : ∀ st,
  extends (db st) (db (for_paths paths (visit_path W C) st).1.2).
Proof.
  induction paths as [|p paths IH]; intros st; [done|].
  rewrite for_paths_cons. pose proof (visit_path_extends W C p st) as Hp.
  destruct (visit_path W C p st) as [[out st1] [[]|e]]; [|done].
  specialize (IH st1).
  destruct (for_paths paths (visit_path W C) st1) as [[out' st2] r].
  cbn [fst snd] in *. by etrans.
Qed.

(** X21. However a run of [main] ends, the graph it leaves extends the
    graph it found: every node, edge and constraint is still there,
    unchanged.  What the files before a failure recorded stays
    recorded. *)
Theorem main_only_adds W C st :
  extends (db st) (db (store_after (main W C st))).
Proof.
  unfold store_after. rewrite main_unfold.
  pose proof (for_paths_extends W C (rglob C) st) as H.
  by destruct (for_paths (rglob C) (visit_path W C) st)
    as [[out st'] [[]|e]].
Qed.

(** ** A line that cannot be printed *)



